(** * Genland terrain generator and Wu colour quantizer (goxel, src/camera.c)

    A shallow embedding of the terrain pipeline of [generate_tomland_terrain]
    (pixel stores, river mask, shadow pass, composite), of the sign stamp
    [signprint], of the voxelizer [process_voxel_data], of the VXL writer
    [savevxl] and of Wu's colour quantizer ([Hist3d], [M3d], [Vol], [Cut],
    [genpal]), followed by the properties proved about them.

    Conventions of the embedding.
    - C [long] and [int] values are integers of [Z]; the tables of the
      quantizer hold at most the number of pixels histogrammed times 255,
      and signed overflow (which C leaves undefined) is not modelled.
      Where its width matters (pixels read through a [long] pointer, the
      words written by [fwrite]) [long] is the 32-bit type of the Windows
      targets the file is written for.
    - [unsigned char] values are integers of [Z] in 0..255; the conversion
      to [unsigned char] keeps the low eight bits ([to_uchar]).
    - [float] and [double] values are exact rationals of [Q]; rounding is
      not modelled.  The one transcendental step (the river mask, which
      calls [sin]) is stated over the reals [R].
    - A C array is a finite map from index to value ([gmap Z]), or a total
      function from index to value when its initial contents are whatever
      the stack or the caller left there. *)

From Stdlib Require Import ZArith QArith Qround Lia List.
From Stdlib Require Import Reals Lra.
From stdpp Require Import gmap list.

Local Open Scope Z_scope.

(** ** Loops *)

(** [for_up n i body s] runs [body i], [body (i+1)], ... [n] times. *)
Fixpoint for_up {S : Type} (n : nat) (i : Z) (body : Z -> S -> S) (s : S) : S :=
  match n with
  | O => s
  | Datatypes.S n' => for_up n' (i + 1) body (body i s)
  end.

(** [for (i = lo; i < hi; i++) s = body i s]. *)
Definition for_range {S : Type} (lo hi : Z) (body : Z -> S -> S) (s : S) : S :=
  for_up (Z.to_nat (hi - lo)) lo body s.

(** ** Arrays *)

(** A zero-initialised array of [A], read with a default for the cells
    never written. *)
Definition aget {A : Type} (d : A) (m : gmap Z A) (i : Z) : A := default d (m !! i).
Definition aset {A : Type} (m : gmap Z A) (i : Z) (v : A) : gmap Z A := <[i:=v]> m.

Definition tget (m : gmap Z Z) (i : Z) : Z := aget 0 m i.
Definition tset (m : gmap Z Z) (i v : Z) : gmap Z Z := aset m i v.

(** ** Floating-point rounding *)

(** [floor (log2 |q|)] for a rational [q] other than 0. *)
Definition Qlog2 (q : Q) : Z :=
  let n := Z.abs (Qnum q) in
  let d := Zpos (Qden q) in
  let k := Z.log2 n - Z.log2 d in
  if (if 0 <=? k then n <? d * 2 ^ k else n * 2 ^ (- k) <? d) then k - 1 else k.

(** [2^e] as a rational, for any integer [e]. *)
Definition Qpow2 (e : Z) : Q :=
  if 0 <=? e then inject_Z (2 ^ e) else 1 # Z.to_pos (2 ^ (- e)).

(** The integer nearest to [q], the even one of two equally near. *)
Definition round_even (q : Q) : Z :=
  let n := Qfloor q in
  match (q - inject_Z n ?= 1 # 2)%Q with
  | Lt => n
  | Gt => n + 1
  | Eq => if Z.even n then n else n + 1
  end.

(** The IEEE 754 rounding to nearest (ties to even) of [q] to a binary
    format of [prec] significant bits whose least normal exponent is
    [emin]; below it the spacing of the subnormal numbers is kept.  The
    overflow to infinity is not modelled: the heights and colours rounded
    here are far below the largest finite number. *)
Definition fl_round (prec emin : Z) (q : Q) : Q :=
  if Qeq_bool q 0 then 0%Q
  else
    let e := Z.max (Qlog2 q) emin in
    let ulp := Qpow2 (e - prec + 1) in
    Qred (inject_Z (round_even (q / ulp)) * ulp).

(** Rounding to [float] and to [double]. *)
Definition fl32 : Q -> Q := fl_round 24 (-126).
Definition fl64 : Q -> Q := fl_round 53 (-1022).

(** ** Arithmetic on [long] *)

(** The value a 32-bit [long] takes when the result [v] of an operation is
    stored in it: [v] wrapped into the range from -2^31 to 2^31 - 1. *)
Definition wrap_long (v : Z) : Z := (v + 2 ^ 31) mod 2 ^ 32 - 2 ^ 31.

(** [a + b], [a - b], [-a] and [a << n] on [long]s. *)
Definition ladd (a b : Z) : Z := wrap_long (a + b).
Definition lsub (a b : Z) : Z := wrap_long (a - b).
Definition lneg (a : Z) : Z := wrap_long (- a).
Definition lshl (a n : Z) : Z := wrap_long (Z.shiftl a n).

(** Two integers that a [long] does not tell apart: they differ by a
    multiple of 2^32. *)
Inductive same_long (a b : Z) : Prop :=
| same_long_mod : a mod 2 ^ 32 = b mod 2 ^ 32 -> same_long a b.

Local Infix "+|" := ladd (at level 50, left associativity).
Local Infix "-|" := lsub (at level 50, left associativity).

(** ** Wu's colour quantizer *)

(** [typedef struct { long r0, r1, g0, g1, b0, b1, vol; } box;]
    with [r0 < col <= r1] and so on. *)
Record box : Type := mkbox {
  r0 : Z; r1 : Z; g0 : Z; g1 : Z; b0 : Z; b1 : Z; vol : Z
}.

(** The five global moment tables [wt], [mr], [mg], [mb] (long) and [m2]
    (float), each of 33*33*33 cells. *)
Record moments : Type := mkmoments {
  wt : gmap Z Z; mr : gmap Z Z; mg : gmap Z Z; mb : gmap Z Z; m2 : gmap Z Q
}.

(** [genpal_init]: every table zeroed. *)
Definition genpal_init : moments :=
  {| wt := ∅; mr := ∅; mg := ∅; mb := ∅; m2 := ∅ |}.

(** [typedef struct { long f, p, x, y; } tiletype;]: frame address, pitch
    in bytes, width and height. *)
Record tiletype : Type := mktile { tf : Z; tp : Z; tx : Z; ty : Z }.

(** One pixel of [Hist3d]; [px] is the 32-bit pixel [lptr[x]]. *)
Definition Hist3d_pixel (px : Z) (q : moments) : moments :=
  let r := Z.land (Z.shiftr px 16) 255 in
  let g := Z.land (Z.shiftr px 8) 255 in
  let b := Z.land px 255 in
  let i := (Z.shiftr r 3 + 1) * (33 * 33) + (Z.shiftr g 3 + 1) * 33 + (Z.shiftr b 3 + 1) in
  {| wt := tset (wt q) i (tget (wt q) i +| 1);
     mr := tset (mr q) i (tget (mr q) i +| r);
     mg := tset (mg q) i (tget (mg q) i +| g);
     mb := tset (mb q) i (tget (mb q) i +| b);
     m2 := aset (m2 q) i (aget 0%Q (m2 q) i + inject_Z (r * r + g * g + b * b))%Q |}.

(** [Hist3d]: [mem a] is the long stored at byte address [a]; row [y] of
    the tile starts at [tf + y*tp]. *)
Definition Hist3d (mem : Z -> Z) (tt : tiletype) (q : moments) : moments :=
  for_range 0 (ty tt) (fun y q =>
    let lptr := tf tt + y * tp tt in
    for_range 0 (tx tt) (fun x q => Hist3d_pixel (mem (lptr + 4 * x)) q) q) q.

Definition genpal_addhist (mem : Z -> Z) (tt : tiletype) (q : moments) : moments :=
  Hist3d mem tt q.

(** One table of [M3d] with its running sums: [line] ([line], [lr], [lg],
    [lb], [line2]), [area] ([area], [ar], [ag], [ab], [area2]) and the
    table itself. *)
Record lane (A : Type) : Type := mklane {
  line : A; area : gmap Z A; tbl : gmap Z A
}.
Arguments mklane {A} _ _ _.
Arguments line {A} _.
Arguments area {A} _.
Arguments tbl {A} _.

Section Lane.
Context {A : Type} (zero : A) (add : A -> A -> A).

(** [for(i=0;i<=32;i++) area[i] = 0;] *)
Definition lane_clear_area (l : lane A) : lane A :=
  mklane (line l) (for_range 0 33 (fun i a => aset a i zero) (area l)) (tbl l).

(** [line = 0;] *)
Definition lane_clear_line (l : lane A) : lane A :=
  mklane zero (area l) (tbl l).

(** The statements of the innermost loop body that touch this table. *)
Definition lane_cell (r g b : Z) (l : lane A) : lane A :=
  let ind1 := r * (33 * 33) + g * 33 + b in
  let line' := add (line l) (aget zero (tbl l) ind1) in
  let area' := aset (area l) b (add (aget zero (area l) b) line') in
  let ind2 := ind1 - 33 * 33 in
  mklane line' area' (aset (tbl l) ind1 (add (aget zero (tbl l) ind2) (aget zero area' b))).
End Lane.

(** The locals and tables of [M3d], one lane per table. *)
Record m3d_state : Type := mkm3d {
  l_wt : lane Z; l_mr : lane Z; l_mg : lane Z; l_mb : lane Z; l_m2 : lane Q
}.

Definition m3d_lanes (fz : lane Z -> lane Z) (fq : lane Q -> lane Q) (s : m3d_state) : m3d_state :=
  {| l_wt := fz (l_wt s); l_mr := fz (l_mr s); l_mg := fz (l_mg s); l_mb := fz (l_mb s);
     l_m2 := fq (l_m2 s) |}.

(** The loop nest of [M3d]. *)
Definition M3d_loops (s : m3d_state) : m3d_state :=
  for_range 1 33 (fun r s =>
    let s := m3d_lanes (lane_clear_area 0) (lane_clear_area 0%Q) s in
    for_range 1 33 (fun g s =>
      let s := m3d_lanes (lane_clear_line 0) (lane_clear_line 0%Q) s in
      for_range 1 33 (fun b s =>
        m3d_lanes (lane_cell 0 ladd r g b) (lane_cell 0%Q Qplus r g b) s) s) s) s.

(** [M3d]: the locals [line..] and [area..] start with whatever the stack
    holds ([jz], [jq], [ja], [jaq]). *)
Definition M3d (jz : Z) (jq : Q) (ja : gmap Z Z) (jaq : gmap Z Q) (q : moments) : moments :=
  let s := M3d_loops {| l_wt := mklane jz ja (wt q); l_mr := mklane jz ja (mr q);
                        l_mg := mklane jz ja (mg q); l_mb := mklane jz ja (mb q);
                        l_m2 := mklane jq jaq (m2 q) |} in
  {| wt := tbl (l_wt s); mr := tbl (l_mr s); mg := tbl (l_mg s); mb := tbl (l_mb s);
     m2 := tbl (l_m2 s) |}.

(** [Vol]: sum over a box of one statistic, by inclusion-exclusion. *)
Definition Vol (cube : box) (mmt : gmap Z Z) : Z :=
     tget mmt (r1 cube * (33 * 33) + g1 cube * 33 + b1 cube)
  -| tget mmt (r1 cube * (33 * 33) + g1 cube * 33 + b0 cube)
  -| tget mmt (r1 cube * (33 * 33) + g0 cube * 33 + b1 cube)
  +| tget mmt (r1 cube * (33 * 33) + g0 cube * 33 + b0 cube)
  -| tget mmt (r0 cube * (33 * 33) + g1 cube * 33 + b1 cube)
  +| tget mmt (r0 cube * (33 * 33) + g1 cube * 33 + b0 cube)
  +| tget mmt (r0 cube * (33 * 33) + g0 cube * 33 + b1 cube)
  -| tget mmt (r0 cube * (33 * 33) + g0 cube * 33 + b0 cube).

(** [Bot]: the part of [Vol] that does not depend on the upper bound along
    [dir] (2 = red, 1 = green, 0 = blue). *)
Definition Bot (cube : box) (dir : Z) (mmt : gmap Z Z) : Z :=
  if dir =? 2 then
       lneg (tget mmt (r0 cube * (33 * 33) + g1 cube * 33 + b1 cube))
    +| tget mmt (r0 cube * (33 * 33) + g1 cube * 33 + b0 cube)
    +| tget mmt (r0 cube * (33 * 33) + g0 cube * 33 + b1 cube)
    -| tget mmt (r0 cube * (33 * 33) + g0 cube * 33 + b0 cube)
  else if dir =? 1 then
       lneg (tget mmt (r1 cube * (33 * 33) + g0 cube * 33 + b1 cube))
    +| tget mmt (r1 cube * (33 * 33) + g0 cube * 33 + b0 cube)
    +| tget mmt (r0 cube * (33 * 33) + g0 cube * 33 + b1 cube)
    -| tget mmt (r0 cube * (33 * 33) + g0 cube * 33 + b0 cube)
  else
       lneg (tget mmt (r1 cube * (33 * 33) + g1 cube * 33 + b0 cube))
    +| tget mmt (r1 cube * (33 * 33) + g0 cube * 33 + b0 cube)
    +| tget mmt (r0 cube * (33 * 33) + g1 cube * 33 + b0 cube)
    -| tget mmt (r0 cube * (33 * 33) + g0 cube * 33 + b0 cube).

(** [Top]: the rest of [Vol], with [pos] in place of the upper bound. *)
Definition Top (cube : box) (dir : Z) (pos : Z) (mmt : gmap Z Z) : Z :=
  if dir =? 2 then
       tget mmt (pos * (33 * 33) + g1 cube * 33 + b1 cube)
    -| tget mmt (pos * (33 * 33) + g1 cube * 33 + b0 cube)
    -| tget mmt (pos * (33 * 33) + g0 cube * 33 + b1 cube)
    +| tget mmt (pos * (33 * 33) + g0 cube * 33 + b0 cube)
  else if dir =? 1 then
       tget mmt (r1 cube * (33 * 33) + pos * 33 + b1 cube)
    -| tget mmt (r1 cube * (33 * 33) + pos * 33 + b0 cube)
    -| tget mmt (r0 cube * (33 * 33) + pos * 33 + b1 cube)
    +| tget mmt (r0 cube * (33 * 33) + pos * 33 + b0 cube)
  else
       tget mmt (r1 cube * (33 * 33) + g1 cube * 33 + pos)
    -| tget mmt (r1 cube * (33 * 33) + g0 cube * 33 + pos)
    -| tget mmt (r0 cube * (33 * 33) + g1 cube * 33 + pos)
    +| tget mmt (r0 cube * (33 * 33) + g0 cube * 33 + pos).

(** [a > b] on floats. *)
Definition Qgtb (a b : Q) : bool := negb (Qle_bool a b).

(** [Var]: weighted variance of a box.  It is called on the two halves of
    a successful cut only, whose weights are not zero. *)
Definition Var (q : moments) (cube : box) : Q :=
  let at_ (r g b : Z) := aget 0%Q (m2 q) (r * (33 * 33) + g * 33 + b) in
  let xx := (at_ (r1 cube) (g1 cube) (b1 cube) - at_ (r1 cube) (g1 cube) (b0 cube)
           - at_ (r1 cube) (g0 cube) (b1 cube) + at_ (r1 cube) (g0 cube) (b0 cube)
           - at_ (r0 cube) (g1 cube) (b1 cube) + at_ (r0 cube) (g1 cube) (b0 cube)
           + at_ (r0 cube) (g0 cube) (b1 cube) - at_ (r0 cube) (g0 cube) (b0 cube))%Q in
  let dr := inject_Z (Vol cube (mr q)) in
  let dg := inject_Z (Vol cube (mg q)) in
  let db := inject_Z (Vol cube (mb q)) in
  (xx - (dr * dr + dg * dg + db * db) / inject_Z (Vol cube (wt q)))%Q.

(** The gain [((float)hr*hr + (float)hg*hg + (float)hb*hb)/hw]. *)
Definition gain (hr hg hb hw : Z) : Q :=
  ((inject_Z hr * inject_Z hr + inject_Z hg * inject_Z hg + inject_Z hb * inject_Z hb)
   / inject_Z hw)%Q.

(** One candidate cut of [Maximize]; the state is [(fmax, cut)]. *)
Definition Maximize_body (q : moments) (cube : box) (dir : Z)
    (br bg bb bw wr wg wb ww : Z) (i : Z) (s : Q * Z) : Q * Z :=
  let hr := br +| Top cube dir i (mr q) in
  let hg := bg +| Top cube dir i (mg q) in
  let hb := bb +| Top cube dir i (mb q) in
  let hw := bw +| Top cube dir i (wt q) in
  if hw =? 0 then s else
  let f := gain hr hg hb hw in
  let hr := wr -| hr in
  let hg := wg -| hg in
  let hb := wb -| hb in
  let hw := ww -| hw in
  if hw =? 0 then s else
  let f := (f + gain hr hg hb hw)%Q in
  if Qgtb f (fst s) then (f, i) else s.

(** [Maximize]: returns [(fmax, *cut)]. *)
Definition Maximize (q : moments) (cube : box) (dir : Z) (first last : Z)
    (wr wg wb ww : Z) : Q * Z :=
  let br := Bot cube dir (mr q) in
  let bg := Bot cube dir (mg q) in
  let bb := Bot cube dir (mb q) in
  let bw := Bot cube dir (wt q) in
  for_range first last (Maximize_body q cube dir br bg bb bw wr wg wb ww) (0%Q, -1).

Definition box_vol (c : box) : Z := (r1 c - r0 c) * (g1 c - g0 c) * (b1 c - b0 c).

(** [Cut]: [None] is [return(0)], where neither box is written; [Some
    (set1', set2')] is [return(1)] with the new contents of both boxes
    (every field of [set2] is assigned on that path). *)
Definition Cut (q : moments) (set1 : box) : option (box * box) :=
  let wr := Vol set1 (mr q) in
  let wg := Vol set1 (mg q) in
  let wb := Vol set1 (mb q) in
  let ww := Vol set1 (wt q) in
  let '(maxr, cutr) := Maximize q set1 2 (r0 set1 + 1) (r1 set1) wr wg wb ww in
  let '(maxg, cutg) := Maximize q set1 1 (g0 set1 + 1) (g1 set1) wr wg wb ww in
  let '(maxb, cutb) := Maximize q set1 0 (b0 set1 + 1) (b1 set1) wr wg wb ww in
  let split (dir : Z) : option (box * box) :=
    let '(s1, s2) :=
      if dir =? 2 then
        (mkbox (r0 set1) cutr (g0 set1) (g1 set1) (b0 set1) (b1 set1) (vol set1),
         mkbox cutr (r1 set1) (g0 set1) (g1 set1) (b0 set1) (b1 set1) 0)
      else if dir =? 1 then
        (mkbox (r0 set1) (r1 set1) (g0 set1) cutg (b0 set1) (b1 set1) (vol set1),
         mkbox (r0 set1) (r1 set1) cutg (g1 set1) (b0 set1) (b1 set1) 0)
      else
        (mkbox (r0 set1) (r1 set1) (g0 set1) (g1 set1) (b0 set1) cutb (vol set1),
         mkbox (r0 set1) (r1 set1) (g0 set1) (g1 set1) cutb (b1 set1) 0) in
    Some (mkbox (r0 s1) (r1 s1) (g0 s1) (g1 s1) (b0 s1) (b1 s1) (box_vol s1),
          mkbox (r0 s2) (r1 s2) (g0 s2) (g1 s2) (b0 s2) (b1 s2) (box_vol s2)) in
  if Qle_bool maxg maxr && Qle_bool maxb maxr then
    (if cutr <? 0 then None else split 2)
  else if Qle_bool maxr maxg && Qle_bool maxb maxg then split 1
  else split 0.

(** In-place update of an array whose initial contents are arbitrary. *)
Definition upd {A : Type} (f : Z -> A) (i : Z) (v : A) : Z -> A :=
  fun k => if k =? i then v else f k.

(** [(unsigned char)v] for an integer [v]. *)
Definition to_uchar (v : Z) : Z := v mod 256.

(** [Mark]: label every cell of the box in [tag]. *)
Definition Mark (cube : box) (label : Z) (tag : gmap Z Z) : gmap Z Z :=
  for_range (r0 cube + 1) (r1 cube + 1) (fun r tag =>
    for_range (g0 cube + 1) (g1 cube + 1) (fun g tag =>
      for_range (b0 cube + 1) (b1 cube + 1) (fun b tag =>
        tset tag (Z.shiftl r 10 + Z.shiftl r 6 + r + (Z.shiftl g 5 + g) + b) (to_uchar label))
      tag) tag) tag.

(** The locals of the split loop of [genpal]; [running] is cleared when
    the loop is left (by [break] or because [i] reached [colsiz]). *)
Record gstate : Type := mkg {
  cube : Z -> box; vv : Z -> Q; gn : Z; gi : Z; colsiz : Z; running : bool
}.

(** The scan [n = 0; f = vv[0]; for(k=1;k<=i;k++) if (vv[k] > f) ...];
    the state is [(f, n)]. *)
Definition scan_max (vv : Z -> Q) (i : Z) : Q * Z :=
  for_range 1 (i + 1) (fun k s => if Qgtb (vv k) (fst s) then (vv k, k) else s) (vv 0, 0).

(** [(cube[k].vol > 1) ? Var(&cube[k]) : 0.0] *)
Definition box_var (q : moments) (c : box) : Q :=
  if vol c >? 1 then Var q c else 0%Q.

(** One trip round the split loop: the test [i < colsiz], the body, and
    the increment [i++] unless the body left by [break]. *)
Definition genpal_iter (q : moments) (s : gstate) : gstate :=
  if negb (running s) then s
  else if negb (gi s <? colsiz s) then
    mkg (cube s) (vv s) (gn s) (gi s) (colsiz s) false
  else
    let n := gn s in
    let i := gi s in
    let '(cube', vv', i') :=
      match Cut q (cube s n) with
      | Some (set1, set2) =>
          let cube' := upd (upd (cube s) n set1) i set2 in
          let vv1 := upd (vv s) n (box_var q (cube' n)) in
          (cube', upd vv1 i (box_var q (cube' i)), i)
      | None => (cube s, upd (vv s) n 0%Q, i - 1)
      end in
    let '(f, n') := scan_max vv' i' in
    if Qle_bool f 0 then mkg cube' vv' n' i' (i' + 1) false
    else mkg cube' vv' n' (i' + 1) (colsiz s) true.

(** The state on entry to the split loop.  [cube0] and [vv0] are the
    uninitialised stack arrays; only the six bounds of [cube[0]] are
    assigned. *)
Definition genpal_start (cube0 : Z -> box) (vv0 : Z -> Q) : gstate :=
  mkg (upd cube0 0 (mkbox 0 32 0 32 0 32 (vol (cube0 0)))) vv0 0 1 256 true.

(** The state after [k] trips round the loop. *)
Definition genpal_loop (q : moments) (k : nat) (s : gstate) : gstate :=
  Nat.iter k (genpal_iter q) s.

(** What [genpal] leaves behind: the palette, the tag table, the number of
    boxes and the boxes themselves. *)
Record palette : Type := mkpal {
  pal : Z -> Z; tag : gmap Z Z; ncol : Z; boxes : Z -> box; mom : moments
}.

(** [a / b] on [long]s.  C leaves undefined the division by zero and the
    one quotient no [long] holds, [-2^31 / -1]: [None]. *)
Definition ldiv (a b : Z) : option Z :=
  if (b =? 0) || ((a =? - 2 ^ 31) && (b =? -1)) then None else Some (Z.quot a b).

(** One final box: mark it and compute its palette entry.  [None] once a
    division by zero has been executed. *)
Definition genpal_entry (q : moments) (cube : Z -> box) (k : Z)
    (s : option ((Z -> Z) * gmap Z Z)) : option ((Z -> Z) * gmap Z Z) :=
  match s with
  | None => None
  | Some (pal, tag) =>
      let tag := Mark (cube k) k tag in
      let w := Vol (cube k) (wt q) in
      if w =? 0 then Some (upd pal k 0, tag)
      else
        match ldiv (Vol (cube k) (mr q)) w, ldiv (Vol (cube k) (mg q)) w,
              ldiv (Vol (cube k) (mb q)) w with
        | Some cr, Some cg, Some cb =>
            Some (upd pal k (lshl cr 16 +| lshl cg 8 +| cb), tag)
        | _, _, _ => None
        end
  end.

(** The number of trips after which the split loop has always been left
    (see [genpal_loop_stops]). *)
Definition genpal_trips : nat := 1024.

(** [genpal]: [pal0] is the caller's palette array, [tag0] the fresh
    [malloc]ed tag table; the remaining arguments are stack contents.
    Returns what the call leaves behind, [None] if it divided by zero. *)
Definition genpal (jz : Z) (jq : Q) (ja : gmap Z Z) (jaq : gmap Z Q)
    (cube0 : Z -> box) (vv0 : Z -> Q) (tag0 : gmap Z Z)
    (q : moments) (pal0 : Z -> Z) : option palette :=
  let q := M3d jz jq ja jaq q in
  let s := genpal_loop q genpal_trips (genpal_start cube0 vv0) in
  let q' := mkmoments (wt q) (mr q) (mg q) (mb q) ∅ in
  match for_range 0 (colsiz s) (genpal_entry q (cube s)) (Some (pal0, tag0)) with
  | None => None
  | Some (pal, tag) => Some (mkpal pal tag (colsiz s) (cube s) q')
  end.

(** ** Terrain raster *)

(** [#define VSHL 9] and [#define VSID 512] (the branch under [#if 1]). *)
Definition VSHL : Z := 9.
Definition VSID : Z := 512.

(** [typedef struct { unsigned char b, g, r, a; } vcol;] *)
Record vcol : Type := mkvcol { col_b : Z; col_g : Z; col_r : Z; col_a : Z }.

(** Every channel is an [unsigned char]. *)
Definition vcol_ok (c : vcol) : Prop :=
  0 <= col_b c <= 255 /\ 0 <= col_g c <= 255 /\ 0 <= col_r c <= 255 /\ 0 <= col_a c <= 255.

(** Modelled from the spec: the [min] and [max] macros, which the source
    uses and no file at hand defines; the specification describes their
    use as clamping, and they are taken to be the usual
    [((a)<(b)?(a):(b))] and [((a)>(b)?(a):(b))]. *)
Definition fmin (a b : Q) : Q := if Qgtb b a then a else b.
Definition fmax (a b : Q) : Q := if Qgtb a b then a else b.

(** Conversion of a floating value to an integer: the fraction is dropped. *)
Definition Qtrunc (q : Q) : Z := Z.quot (Qnum q) (Zpos (Qden q)).

(** [(unsigned char)q] for a floating [q].  C defines the result only when
    the truncated value lies in 0..255; outside it the x86 code compilers
    emit for the cast (a conversion to a 32-bit integer of which the low
    byte is kept) yields the low eight bits. *)
Definition uchar_of_Q (q : Q) : Z := to_uchar (Qtrunc q).

(** The pixel stores of one cell of the first pass of
    [generate_tomland_terrain]: [gr], [gg], [gb] is the blended colour,
    [dl] the light factor [d] after [d *= 1.2], [samp0] the dry height
    sample [samp[0]].  Returns [(amb[k], buf[k])]; [amb[k].a] keeps the
    zero of the static array. *)
Definition store_cell (gr gg gb dl samp0 : Q) : vcol * vcol :=
  let d := 0.3%Q in
  let amb_r := uchar_of_Q (fmin (fmax (gr * d) 0) 255) in
  let amb_g := uchar_of_Q (fmin (fmax (gg * d) 0) 255) in
  let amb_b := uchar_of_Q (fmin (fmax (gb * d) 0) 255) in
  let maxa := Z.max (Z.max amb_r amb_g) amb_b in
  let d := dl in
  let buf_a := uchar_of_Q (175 - samp0 * (inject_Z VSID / 256))%Q in
  let buf_r := uchar_of_Q (fmin (fmax (gr * d) 0) (inject_Z (255 - maxa))) in
  let buf_g := uchar_of_Q (fmin (fmax (gg * d) 0) (inject_Z (255 - maxa))) in
  let buf_b := uchar_of_Q (fmin (fmax (gb * d) 0) (inject_Z (255 - maxa))) in
  (mkvcol amb_b amb_g amb_r 0, mkvcol buf_b buf_g buf_r buf_a).

(** The constant [.44] of the source: the [double] nearest to 44/100. *)
Definition c044 : Q := fl64 0.44.

(** [f = hgt[k]+.44] and [f += .44] on the [float] variable [f]: the sum
    is formed in [double] and stored to [float]. *)
Definition fadd044 (f : Q) : Q := fl32 (fl64 (f + c044)).

(** The shadow march of one cell over the [float] heights [hgt]: [fuel]
    bounds the trips; the result is [true] when the march left by [break]
    after [sh[k] = 32]. *)
Fixpoint shadow_march (fuel : nat) (hgt : Z -> Q) (x y i j : Z) (f : Q) : bool :=
  match fuel with
  | O => false
  | Datatypes.S fuel' =>
      if negb (i <? Z.shiftr VSID 2) then false
      else if Qgtb (hgt (Z.shiftl (Z.land (y - Z.shiftr j 1) (VSID - 1)) VSHL
                         + Z.land (x - i) (VSID - 1))) f
      then true
      else shadow_march fuel' hgt x y (i + 1) (j + 1) (fadd044 f)
  end.

(** The shadow factor of cell [(x,y)] after the march: [sh] was cleared by
    [memset], so the factor is 32 or 0. *)
Definition shadow_cell (hgt : Z -> Q) (x y : Z) : Z :=
  let k := y * VSID + x in
  if shadow_march (Z.to_nat VSID) hgt x y 1 1 (fadd044 (hgt k)) then 32 else 0.

(** The march over the whole grid; [k] runs with [x]. *)
Definition shadow_pass (hgt : Z -> Q) : gmap Z Z :=
  for_range 0 VSID (fun y sh =>
    for_range 0 VSID (fun x sh =>
      let k := y * VSID + x in
      if shadow_march (Z.to_nat VSID) hgt x y 1 1 (fadd044 (hgt k))
      then tset sh k 32 else sh) sh) ∅.

(** The smoothing pass, in place. *)
Definition blur_cell (x y : Z) (sh : gmap Z Z) : gmap Z Z :=
  let k := y * VSID + x in
  tset sh k (to_uchar (Z.shiftr
    (tget sh k
     + tget sh (Z.shiftl (Z.land (y + 1) (VSID - 1)) VSHL + x)
     + tget sh (Z.shiftl y VSHL + Z.land (x + 1) (VSID - 1))
     + tget sh (Z.shiftl (Z.land (y + 1) (VSID - 1)) VSHL + Z.land (x + 1) (VSID - 1))
     + 2) 2)).

Definition blur_pass (sh : gmap Z Z) : gmap Z Z :=
  for_range 0 VSID (fun y sh => for_range 0 VSID (fun x sh => blur_cell x y sh) sh) sh.

(** The composite of one cell: [c] is [buf[k]], [a] is [amb[k]], [s] is
    [sh[k]]; each sum is stored into an [unsigned char]. *)
Definition composite_cell (c a : vcol) (s : Z) : vcol :=
  let i := 256 - Z.shiftl s 2 in
  mkvcol (to_uchar (Z.shiftr (col_b c * i) 8 + col_b a))
         (to_uchar (Z.shiftr (col_g c * i) 8 + col_g a))
         (to_uchar (Z.shiftr (col_r c * i) 8 + col_r a))
         (col_a c).

Definition composite_pass (amb : Z -> vcol) (sh : gmap Z Z) (buf : Z -> vcol) : Z -> vcol :=
  for_range 0 VSID (fun y buf =>
    for_range 0 VSID (fun x buf =>
      let k := y * VSID + x in
      upd buf k (composite_cell (buf k) (amb k) (tget sh k))) buf) buf.

(** The raster passes of [generate_tomland_terrain] after the noise has
    been sampled: [cell k] gives [(gr, gg, gb, dl, samp0)] of cell [k] and
    [hgt] is the height array. *)
Definition first_pass (cell : Z -> Q * Q * Q * Q * Q) (ab : (Z -> vcol) * (Z -> vcol))
    : (Z -> vcol) * (Z -> vcol) :=
  for_range 0 VSID (fun y ab =>
    for_range 0 VSID (fun x ab =>
      let k := y * VSID + x in
      let '(gr, gg, gb, dl, samp0) := cell k in
      let '(a, c) := store_cell gr gg gb dl samp0 in
      (upd (fst ab) k a, upd (snd ab) k c)) ab) ab.

Definition shaded_raster (cell : Z -> Q * Q * Q * Q * Q) (hgt : Z -> Q)
    (amb0 buf0 : Z -> vcol) : Z -> vcol :=
  let '(amb, buf) := first_pass cell (amb0, buf0) in
  composite_pass amb (blur_pass (shadow_pass hgt)) buf.

(** ** River mask *)

(** The river lines of the sample loop, over the reals ([PI] is the real
    pi where the source has its 16-digit approximation): from the column
    [x], the river noise [river] and the raw sample [samp] to
    [(csamp[i], samp[i])] as they stand before the water-normal line. *)
Definition river_d (x : Z) (river : R) : R :=
  (sin (IZR x * (PI / 256) + river * 4) * (0.5 + 0.02) + (0.5 - 0.02))%R.

(** [if (d > 1) d = 1;] *)
Definition river_cap (d : R) : R := if Rlt_dec 1 d then 1%R else d.

(** [if (d < 0) d = 0;] *)
Definition river_floor (d : R) : R := if Rlt_dec d 0 then 0%R else d.

Definition river_mask (x : Z) (river samp : R) : R * R :=
  let d := river_cap (river_d x river) in
  let csamp := (samp * d)%R in
  let d := river_floor d in
  (csamp, (samp * d)%R).

(** The mask factor as the specification words it, for a grid of side
    [gridSize]. *)
Definition river_factor_spec (gridSize x : Z) (river : R) : R :=
  river_cap (sin (IZR x * PI / IZR gridSize + river * 4) * 0.52 + 0.48)%R.

(** ** Voxelizer *)

Section Voxelizer.
(** The volume store is an external collaborator: [volume_set_at] writes
    one colour at one position. *)
Context {V : Type} (volume_set_at : V -> Z * Z * Z -> Z * Z * Z * Z -> V).

Definition process_voxel_data (volume : V) (argb : Z -> vcol) : V :=
  for_range 0 VSID (fun y volume =>
    for_range 0 VSID (fun x volume =>
      let c := argb (y * VSID + x) in
      let z := col_a c in
      if z >? 0 then volume_set_at volume (x, y, z) (col_r c, col_g c, col_b c, 255)
      else volume) volume) volume.
End Voxelizer.

(** A store that only records the writes it receives, in order. *)
Definition log_set_at (log : list (Z * Z * Z * (Z * Z * Z * Z)))
    (pos : Z * Z * Z) (color : Z * Z * Z * Z) : list (Z * Z * Z * (Z * Z * Z * Z)) :=
  log ++ [(pos, color)].

(** ** VXL writer *)

(** [fwrite(&v,n,1,fil)] of an integer [v]: its [n] low bytes, little end
    first. *)
Fixpoint le_bytes (n : nat) (v : Z) : list Z :=
  match n with
  | O => []
  | Datatypes.S n' => Z.land v 255 :: le_bytes n' (Z.shiftr v 8)
  end.

(** The 64 bits of the [double] that holds the whole number [v]
    (|v| < 2^53): sign, biased exponent, fraction. *)
Definition double_bits (v : Z) : Z :=
  if v =? 0 then 0
  else
    let m := Z.abs v in
    let e := Z.log2 m in
    Z.shiftl (if v <? 0 then 1 else 0) 63 + Z.shiftl (e + 1023) 52
    + (Z.shiftl m (52 - e) - Z.shiftl 1 52).

(** [typedef struct { double x, y, z; } dpoint3d;] holding whole numbers. *)
Record dpoint3d : Type := mkpoint { px : Z; py : Z; pz : Z }.

(** [fwrite(&p,24,1,fil)] *)
Definition dpoint3d_bytes (p : dpoint3d) : list Z :=
  le_bytes 8 (double_bits (px p)) ++ le_bytes 8 (double_bits (py p))
  ++ le_bytes 8 (double_bits (pz p)).

(** [(unsigned long)v] for a 32-bit [long]. *)
Definition to_ulong (v : Z) : Z := v mod 2 ^ 32.

(** The pixel read through a [long] pointer: the four channels as one
    little-endian word. *)
Definition vcol_long (c : vcol) : Z :=
  Z.lor (Z.lor (col_b c) (Z.shiftl (col_g c) 8))
        (Z.lor (Z.shiftl (col_r c) 16) (Z.shiftl (col_a c) 24)).

Definition long_vcol (v : Z) : vcol :=
  mkvcol (Z.land v 255) (Z.land (Z.shiftr v 8) 255)
         (Z.land (Z.shiftr v 16) 255) (Z.land (Z.shiftr v 24) 255).

(** One trip of [for(i=-1;i<=1;i+=2)] at cell [k = y*VSID+x]. *)
Definition savevxl_neighbours (argb : Z -> vcol) (x y k : Z) (i : Z) (zz : Z) : Z :=
  let zz :=
    if to_ulong (x + i) <? VSID
    then (let j := col_a (argb (k + i)) in if j >? zz then j else zz) else zz in
  if to_ulong (y + i) <? VSID
  then (let j := col_a (argb (k + i * VSID)) in if j >? zz then j else zz) else zz.

(** The bytes written for column [(x,y)]. *)
Definition savevxl_column (argb : Z -> vcol) (x y : Z) (fil : list Z) : list Z :=
  let k := y * VSID + x in
  let z := col_a (argb k) in
  let zz := z + 1 in
  let zz := fold_left (fun zz i => savevxl_neighbours argb x y k i zz) [-1; 1] zz in
  let fil := fil ++ [to_uchar 0; to_uchar z; to_uchar (Z.land (zz - 1) 255); to_uchar 0] in
  let i := Z.lor (Z.land (vcol_long (argb k)) 0xffffff) 0x80000000 in
  for_range z zz (fun _ fil => fil ++ le_bytes 4 i) fil.

(** [savevxl], once [fopen] has succeeded: the bytes of the file. *)
Definition savevxl (argb : Z -> vcol) : list Z :=
  let fil := [] in
  let fil := fil ++ le_bytes 4 0x09072000 in
  let fil := fil ++ le_bytes 4 VSID in
  let fil := fil ++ le_bytes 4 VSID in
  let ipo := mkpoint 256 256 (col_a (argb (Z.shiftr VSID 1 * VSID + Z.shiftr VSID 1)) - 64) in
  let ist := mkpoint 1 0 0 in
  let ihe := mkpoint 0 0 1 in
  let ifo := mkpoint 0 (-1) 0 in
  let fil := fil ++ dpoint3d_bytes ipo in
  let fil := fil ++ dpoint3d_bytes ist in
  let fil := fil ++ dpoint3d_bytes ihe in
  let fil := fil ++ dpoint3d_bytes ifo in
  for_range 0 VSID (fun y fil =>
    for_range 0 VSID (fun x fil => savevxl_column argb x y fil) fil) fil.

(** ** Sign stamp *)

Definition SIGNBPL : Z := 13.
Definition SIGNXSIZ : Z := 100.
Definition SIGNYSIZ : Z := 19.

(** A row of the table whose 13 bytes are all zero. *)
Definition sign_blank_row : list Z := List.repeat 0 13.

(** [signfplc]: 19 rows of [SIGNBPL] bytes. *)
Definition signfplc : list Z :=
     [0x10; 0xdd; 0xc1; 0x15; 0xdc; 0x45; 0xcc; 0xdd; 0x5d; 0x74; 0x71; 0xe9; 0x00]
  ++ [0xb0; 0x55; 0x41; 0x15; 0x48; 0x6d; 0x54; 0x55; 0x55; 0x54; 0x11; 0x45; 0x00]
  ++ [0x50; 0xdd; 0xc1; 0x1c; 0x48; 0x55; 0x54; 0xcd; 0x54; 0x55; 0x71; 0x43; 0x00]
  ++ [0x10; 0x55; 0x40; 0x09; 0x48; 0x45; 0x54; 0x55; 0xd5; 0x56; 0x41; 0x45; 0x00]
  ++ [0x10; 0x55; 0xc0; 0x09; 0xc8; 0x45; 0xcc; 0x5d; 0x5d; 0x74; 0x77; 0xe9; 0x00]
  ++ sign_blank_row
  ++ sign_blank_row
  ++ [0x75; 0x77; 0x80; 0xc8; 0xdd; 0xc0; 0x15; 0x5c; 0x40; 0xcb; 0x5d; 0x94; 0x0a]
  ++ [0x25; 0x52; 0x42; 0x24; 0x44; 0x41; 0x15; 0x54; 0x20; 0x8d; 0xd4; 0x56; 0x0a]
  ++ [0x27; 0x72; 0x20; 0xa2; 0x4d; 0xc1; 0x09; 0x5c; 0x10; 0x80; 0x54; 0x35; 0x0e]
  ++ [0x25; 0x12; 0x12; 0x21; 0x45; 0x41; 0x15; 0x44; 0x08; 0x80; 0x54; 0x54; 0x0a]
  ++ [0x25; 0x12; 0x88; 0xc0; 0xdc; 0x48; 0x95; 0xc4; 0x05; 0x80; 0x5c; 0x94; 0x0a]
  ++ sign_blank_row
  ++ sign_blank_row
  ++ [0x00; 0x77; 0x77; 0x70; 0x77; 0x30; 0x77; 0x77; 0x77; 0x75; 0x77; 0x09; 0x00]
  ++ [0x00; 0x51; 0x11; 0x10; 0x55; 0x50; 0x12; 0x52; 0x52; 0x25; 0x52; 0x0b; 0x00]
  ++ [0x00; 0x33; 0x33; 0x30; 0x35; 0x50; 0x72; 0x32; 0x32; 0x25; 0x52; 0x0d; 0x00]
  ++ [0x00; 0x51; 0x11; 0x10; 0x55; 0x50; 0x42; 0x52; 0x52; 0x25; 0x52; 0x09; 0x00]
  ++ [0x00; 0x51; 0x77; 0x10; 0x57; 0x30; 0x77; 0x52; 0x77; 0x27; 0x77; 0x09; 0x00].

(** [signfplc[y*SIGNBPL+(x>>3)]&(1<<(x&7))] is non-zero. *)
Definition sign_bit (x y : Z) : bool :=
  negb (Z.land (nth (Z.to_nat (y * SIGNBPL + Z.shiftr x 3)) signfplc 0)
               (Z.shiftl 1 (Z.land x 7)) =? 0).

Section SignPrint.
(** [store k s] is the effect of [lptr[x] -= 0x01101010] on the pixel of
    index [k] of [buf]. *)
Context {S : Type} (store : Z -> S -> S).

(** The loops of [signprint]; [lptr] is kept as an index into [buf]
    ([((y*VSID+x)<<2)] bytes are [y*VSID+x] pixels). *)
Definition signprint_loops (x y : Z) (s : S) : S :=
  let lptr := y * VSID + x in
  snd (for_range 0 SIGNYSIZ (fun y ls =>
         let lptr := fst ls in
         (lptr + VSID,
          for_range 0 SIGNXSIZ (fun x s =>
            if sign_bit x y then store (lptr + x) s else s) (snd ls)))
       (lptr, s)).
End SignPrint.

(** [lptr[x] -= 0x01101010] on [buf], an array of [VSID*VSID] pixels: a
    store outside the array has no defined effect ([None]). *)
Definition sign_store (k : Z) (buf : option (Z -> vcol)) : option (Z -> vcol) :=
  match buf with
  | None => None
  | Some b =>
      if (0 <=? k) && (k <? VSID * VSID)
      then Some (upd b k (long_vcol (to_ulong (vcol_long (b k) - 0x01101010))))
      else None
  end.

Definition signprint (x y : Z) (buf : Z -> vcol) : option (Z -> vcol) :=
  signprint_loops sign_store x y (Some buf).

(** The indices [signprint] stores to, in order. *)
Definition signprint_targets (x y : Z) : list Z :=
  signprint_loops (fun k l => l ++ [k]) x y [].

(** ** Vocabulary of the statements *)

(** The indices [lo], [lo+1], ..., [hi-1]. *)
Definition zrange (lo hi : Z) : list Z :=
  map (fun k => lo + Z.of_nat k) (seq 0 (Z.to_nat (hi - lo))).

(** The write cell [(x,y)] is to produce: one voxel at its height when
    the height channel is non-zero, nothing otherwise. *)
Definition cell_writes (argb : Z -> vcol) (x y : Z) : list (Z * Z * Z * (Z * Z * Z * Z)) :=
  let c := argb (y * VSID + x) in
  if col_a c =? 0 then []
  else [((x, y, col_a c), (col_r c, col_g c, col_b c, 255))].

Definition grid_writes (argb : Z -> vcol) : list (Z * Z * Z * (Z * Z * Z * Z)) :=
  flat_map (fun y => flat_map (fun x => cell_writes argb x y) (zrange 0 VSID)) (zrange 0 VSID).

(** The write is in column [(x,y)]. *)
Definition write_at (x y : Z) (w : Z * Z * Z * (Z * Z * Z * Z)) : bool :=
  let '(x', y', _, _) := w in (x' =? x) && (y' =? y).


(** The stores of one cell from its five inputs. *)
Definition store_at (t : Q * Q * Q * Q * Q) : vcol * vcol :=
  let '(gr, gg, gb, dl, samp0) := t in store_cell gr gg gb dl samp0.

(** The cell the march looks at on trip [i] from [(x,y)]: [i] columns and
    [i/2] rows back, wrapping round the grid. *)
Definition march_cell (x y i : Z) : Z :=
  ((y - i / 2) mod VSID) * VSID + (x - i) mod VSID.

(** The threshold the march compares with on trip [i]: the cell's own
    height [h] with [.44] added [i] times in single precision. *)
Definition march_threshold (h : Q) (i : Z) : Q :=
  for_range 0 i (fun _ f => fadd044 f) h.

(** The march as the claim has it: up to [gridSize/4] steps along the
    diagonal on which row and column increase together. *)
Definition shadow_cell_spec (hgt : Z -> Q) (x y : Z) : Z :=
  if existsb (fun i => Qgtb (hgt (((y + i) mod VSID) * VSID + (x + i) mod VSID))
                            (hgt (y * VSID + x)%Z + 0.44 * inject_Z i)%Q)
             (zrange 1 (VSID / 4 + 1))
  then 32 else 0.

(** The lowest voxel of the run of column [(x,y)]: the column's own height
    or, if larger, one less than the height of a neighbour inside the
    grid. *)
Definition column_bottom (argb : Z -> vcol) (x y : Z) : Z :=
  let k := y * VSID + x in
  let m := col_a (argb k) in
  let m := if 0 <? x then Z.max m (col_a (argb (k - 1)) - 1) else m in
  let m := if 0 <? y then Z.max m (col_a (argb (k - VSID)) - 1) else m in
  let m := if x <? VSID - 1 then Z.max m (col_a (argb (k + 1)) - 1) else m in
  if y <? VSID - 1 then Z.max m (col_a (argb (k + VSID)) - 1) else m.

(** The bytes of column [(x,y)]: the slab header and one colour entry per
    voxel of the run. *)
Definition column_bytes (argb : Z -> vcol) (x y : Z) : list Z :=
  let c := argb (y * VSID + x) in
  [0; col_a c; column_bottom argb x y; 0]
  ++ concat (List.repeat [col_b c; col_g c; col_r c; 128]
               (Z.to_nat (column_bottom argb x y - col_a c + 1))).

(** [f lo + f (lo+1) + ... + f (hi-1)]. *)
Definition zsum (f : Z -> Z) (lo hi : Z) : Z :=
  for_range lo hi (fun k acc => acc + f k) 0.

(** The quantized colour [(r,g,b)] lies in the box: [r0 < r <= r1] and so
    on. *)
Definition in_box (c : box) (r g b : Z) : Prop :=
  r0 c < r <= r1 c /\ g0 c < g <= g1 c /\ b0 c < b <= b1 c.

Definition in_boxb (c : box) (r g b : Z) : bool :=
  (r0 c <? r) && (r <=? r1 c) && (g0 c <? g) && (g <=? g1 c) && (b0 c <? b) && (b <=? b1 c).

(** The box lies in the colour cube and is not empty. *)
Definition box_wf (c : box) : Prop :=
  0 <= r0 c < r1 c /\ r1 c <= 32 /\ 0 <= g0 c < g1 c /\ g1 c <= 32
  /\ 0 <= b0 c < b1 c /\ b1 c <= 32.

(** [s1], [s2] are the two halves of [c] cut at a plane strictly inside
    it, each with its volume recomputed. *)
Inductive split_of (c : box) : box -> box -> Prop :=
| split_red (cut : Z) :
    r0 c < cut < r1 c ->
    split_of c
      (mkbox (r0 c) cut (g0 c) (g1 c) (b0 c) (b1 c)
             ((cut - r0 c) * (g1 c - g0 c) * (b1 c - b0 c)))
      (mkbox cut (r1 c) (g0 c) (g1 c) (b0 c) (b1 c)
             ((r1 c - cut) * (g1 c - g0 c) * (b1 c - b0 c)))
| split_green (cut : Z) :
    g0 c < cut < g1 c ->
    split_of c
      (mkbox (r0 c) (r1 c) (g0 c) cut (b0 c) (b1 c)
             ((r1 c - r0 c) * (cut - g0 c) * (b1 c - b0 c)))
      (mkbox (r0 c) (r1 c) cut (g1 c) (b0 c) (b1 c)
             ((r1 c - r0 c) * (g1 c - cut) * (b1 c - b0 c)))
| split_blue (cut : Z) :
    b0 c < cut < b1 c ->
    split_of c
      (mkbox (r0 c) (r1 c) (g0 c) (g1 c) (b0 c) cut
             ((r1 c - r0 c) * (g1 c - g0 c) * (cut - b0 c)))
      (mkbox (r0 c) (r1 c) (g0 c) (g1 c) cut (b1 c)
             ((r1 c - r0 c) * (g1 c - g0 c) * (b1 c - cut))).

(** The number of boxes made so far: [cube[0..live-1]]. *)
Definition live (s : gstate) : Z := if running s then gi s else colsiz s.

(** The sum of a measure over the boxes made so far. *)
Definition total (mu : box -> Z) (s : gstate) : Z :=
  zsum (fun k => mu (cube s k)) 0 (live s).

(** What holds of the locals whenever the loop test is reached, and after
    the loop. *)
Definition ginv (s : gstate) : Prop :=
  (if running s then 1 <= gi s <= 256 /\ colsiz s = 256 /\ 0 <= gn s < gi s
   else 1 <= colsiz s <= 256)
  /\ forall k, 0 <= k < live s -> box_wf (cube s k).

(** [vv[k] > 0], as a number. *)
Definition vpos (v : Q) : Z := if Qgtb v 0 then 1 else 0.

(** What decreases on every trip that does not leave the loop: three per
    box still to be made, plus one per box of positive variance. *)
Definition trips_left (s : gstate) : Z :=
  3 * (256 - gi s) + zsum (fun k => vpos (vv s k)) 0 (gi s).

(** After the first trip the box chosen for the next cut has positive
    variance. *)
Definition chosen_pos (s : gstate) : Prop :=
  gi s = 1 \/ (0 < vv s (gn s))%Q.

(** Moment tables with one pixel in the red slab 1 and one in the slab 32. *)
Definition two_slab_moments : moments :=
  let t := tset (tset ∅ (1 * (33 * 33) + 32 * 33 + 32) 1) (32 * (33 * 33) + 32 * 33 + 32) 2 in
  mkmoments t t ∅ ∅ ∅.

(** An image of one row of three pixels at address 0: two reds of
    different brightness and one blue. *)
Definition three_pixel_image : list ((Z -> Z) * tiletype) :=
  [(fun a => if a =? 0 then 0xFF0000 else if a =? 4 then 0x800000 else 0x0000FF,
    mktile 0 12 3 1)].

(** The index of cell [[r][g][b]] in a table. *)
Definition idx (r g b : Z) : Z := r * (33 * 33) + g * 33 + b.

(** The loop nest of [M3d] on one table. *)
Definition M3d_lane (l : lane Z) : lane Z :=
  for_range 1 33 (fun r l =>
    let l := lane_clear_area 0 l in
    for_range 1 33 (fun g l =>
      let l := lane_clear_line 0 l in
      for_range 1 33 (fun b l => lane_cell 0 ladd r g b l) l) l) l.

(** A table whose cells with a zero coordinate hold 0, as the tables are
    on entry to [M3d]. *)
Definition zero_margin (T0 : gmap Z Z) : Prop :=
  forall r g b,
    0 <= r <= 32 -> 0 <= g <= 32 -> 0 <= b <= 32 -> r = 0 \/ g = 0 \/ b = 0 ->
    tget T0 (idx r g b) = 0.

(** The histogram, and its sums along blue, then green, then red. *)
Definition hist_at (T0 : gmap Z Z) (r g b : Z) : Z := tget T0 (idx r g b).

Definition line_sum (T0 : gmap Z Z) (r g b : Z) : Z :=
  zsum (fun b' => hist_at T0 r g b') 1 (b + 1).

Definition area_sum (T0 : gmap Z Z) (r g b : Z) : Z :=
  zsum (fun g' => line_sum T0 r g' b) 1 (g + 1).

Definition prefix_sum (T0 : gmap Z Z) (r g b : Z) : Z :=
  zsum (fun r' => area_sum T0 r' g b) 1 (r + 1).

(** Cell [(r',g',b')] comes before [(r,g,b)] in the order of the loops. *)
Definition before (r' g' b' r g b : Z) : Prop :=
  r' < r \/ (r' = r /\ (g' < g \/ (g' = g /\ b' < b))).

(** The table while the loops stand at [(r,g,b)]: the cells before hold
    their prefix sum as a [long] holds it, every other index what it held
    on entry. *)
Definition table_at (T0 : gmap Z Z) (r g b : Z) (t : gmap Z Z) : Prop :=
  (forall r' g' b', 1 <= r' <= 32 -> 1 <= g' <= 32 -> 1 <= b' <= 32 ->
     (before r' g' b' r g b -> tget t (idx r' g' b') = wrap_long (prefix_sum T0 r' g' b'))
     /\ (~ before r' g' b' r g b -> tget t (idx r' g' b') = hist_at T0 r' g' b'))
  /\ (forall j, (forall r' g' b', 1 <= r' <= 32 -> 1 <= g' <= 32 -> 1 <= b' <= 32 ->
                   j <> idx r' g' b') -> tget t j = tget T0 j).

(** The running sums [area[1..32]] while the loops stand at [(r,g,b)]. *)
Definition area_at (T0 : gmap Z Z) (r g b : Z) (a : gmap Z Z) : Prop :=
  forall b', 1 <= b' <= 32 ->
    (b' < b -> aget 0 a b' = wrap_long (area_sum T0 r g b'))
    /\ (b <= b' -> aget 0 a b' = wrap_long (area_sum T0 r (g - 1) b')).

(** The sum of [h] over the cells of a box. *)
Definition box_sum (h : Z -> Z -> Z -> Z) (c : box) : Z :=
  zsum (fun r => zsum (fun g => zsum (fun b => h r g b) (b0 c + 1) (b1 c + 1))
                      (g0 c + 1) (g1 c + 1)) (r0 c + 1) (r1 c + 1).

(** The channels of a pixel and its quantized coordinates, as [Hist3d]
    computes them. *)
Definition pix_r (px : Z) : Z := Z.land (Z.shiftr px 16) 255.

Definition pix_g (px : Z) : Z := Z.land (Z.shiftr px 8) 255.

Definition pix_b (px : Z) : Z := Z.land px 255.

Definition quant (v : Z) : Z := Z.shiftr v 3 + 1.

(** The pixels of a tile in the order [Hist3d] reads them. *)
Definition tile_pixels (mem : Z -> Z) (tt : tiletype) : list Z :=
  flat_map (fun y => map (fun x => mem (tf tt + y * tp tt + 4 * x)) (zrange 0 (tx tt)))
           (zrange 0 (ty tt)).

(** The pixels of a sequence of images. *)
Definition all_pixels (imgs : list ((Z -> Z) * tiletype)) : list Z :=
  flat_map (fun im => tile_pixels (fst im) (snd im)) imgs.

(** The tables after [genpal_addhist] has been called on each image in
    turn. *)
Definition addhist_all (imgs : list ((Z -> Z) * tiletype)) (q : moments) : moments :=
  fold_left (fun q im => genpal_addhist (fst im) (snd im) q) imgs q.

(** The sum of [val] over the pixels of [pxs] that [sel] selects. *)
Definition pixel_sum (sel : Z -> bool) (val : Z -> Z) (pxs : list Z) : Z :=
  fold_right (fun px acc => (if sel px then val px else 0) + acc) 0 pxs.

(** The pixel falls in cell [j] of the tables. *)
Definition at_index (j : Z) (px : Z) : bool :=
  idx (quant (pix_r px)) (quant (pix_g px)) (quant (pix_b px)) =? j.

(** The pixel's quantized colour lies in the box. *)
Definition in_box_px (c : box) (px : Z) : bool :=
  in_boxb c (quant (pix_r px)) (quant (pix_g px)) (quant (pix_b px)).

(** The number of pixels [Hist3d] reads from a tile. *)
Definition tile_count (tt : tiletype) : Z := Z.max 0 (tx tt) * Z.max 0 (ty tt).

(** The number of pixels fed to the histogram by a sequence of images. *)
Definition pixels_fed (imgs : list ((Z -> Z) * tiletype)) : Z :=
  fold_right (fun im acc => tile_count (snd im) + acc) 0 imgs.

(** The palette entry of box [c]. *)
Definition entry_of (q : moments) (c : box) : Z :=
  let w := Vol c (wt q) in
  if w =? 0 then 0
  else lshl (Z.quot (Vol c (mr q)) w) 16 +| lshl (Z.quot (Vol c (mg q)) w) 8
       +| Z.quot (Vol c (mb q)) w.

(** Every entry of the table is a value a [long] holds. *)
Definition long_table (T : gmap Z Z) : Prop :=
  forall j, - 2 ^ 31 <= tget T j < 2 ^ 31.

(** * Properties *)

(** ** Loops *)

Lemma for_up_ind {S : Type} (P : Z -> S -> Prop) (body : Z -> S -> S) (n : nat) :
  forall (i : Z) (s : S),
    P i s ->
    (forall j t, i <= j < i + Z.of_nat n -> P j t -> P (j + 1) (body j t)) ->
    P (i + Z.of_nat n) (for_up n i body s).
Proof.
  induction n as [|n IH]; intros i s H0 Hstep; simpl for_up.
  - replace (i + Z.of_nat 0) with i by lia. exact H0.
  - replace (i + Z.of_nat (Datatypes.S n)) with ((i + 1) + Z.of_nat n) by lia.
    apply IH.
    + apply Hstep; [lia | exact H0].
    + intros j t Hj. apply Hstep. lia.
Qed.

Lemma for_range_ind {S : Type} (P : Z -> S -> Prop) (body : Z -> S -> S) (lo hi : Z) (s : S) :
  lo <= hi ->
  P lo s ->
  (forall j t, lo <= j < hi -> P j t -> P (j + 1) (body j t)) ->
  P hi (for_range lo hi body s).
Proof.
  intros Hle H0 Hstep. unfold for_range.
  replace hi with (lo + Z.of_nat (Z.to_nat (hi - lo))) at 1 by lia.
  apply for_up_ind; [exact H0|].
  intros j t Hj. apply Hstep. lia.
Qed.

Lemma for_range_empty {S : Type} (body : Z -> S -> S) (lo hi : Z) (s : S) :
  hi <= lo -> for_range lo hi body s = s.
Proof.
  intros H. unfold for_range. replace (Z.to_nat (hi - lo)) with O by lia. reflexivity.
Qed.

Lemma for_up_fold {S : Type} (body : Z -> S -> S) (n : nat) :
  forall (i : Z) (s : S),
    for_up n i body s
    = fold_left (fun s j => body j s) (map (fun k => i + Z.of_nat k) (seq 0 n)) s.
Proof.
  induction n as [|n IH]; intros i s; [reflexivity|].
  simpl. rewrite IH. f_equal.
  - rewrite <- seq_shift, map_map. apply map_ext. intros k. lia.
  - f_equal. lia.
Qed.

Lemma for_range_fold {S : Type} (body : Z -> S -> S) (lo hi : Z) (s : S) :
  for_range lo hi body s = fold_left (fun s j => body j s) (zrange lo hi) s.
Proof. apply for_up_fold. Qed.

Lemma in_zrange (lo hi k : Z) : In k (zrange lo hi) <-> lo <= k < hi.
Proof.
  unfold zrange. rewrite in_map_iff. split.
  - intros [j [<- Hj]]. apply in_seq in Hj. lia.
  - intros H. exists (Z.to_nat (k - lo)). split; [lia|]. apply in_seq. lia.
Qed.

Lemma to_uchar_small (v : Z) : 0 <= v <= 255 -> to_uchar v = v.
Proof. intros H. unfold to_uchar. apply Z.mod_small. lia. Qed.

Lemma zrange_nil (lo hi : Z) : hi <= lo -> zrange lo hi = [].
Proof. intros H. unfold zrange. replace (Z.to_nat (hi - lo)) with O by lia. reflexivity. Qed.

Lemma zrange_cons (lo hi : Z) : lo < hi -> zrange lo hi = lo :: zrange (lo + 1) hi.
Proof.
  intros H. unfold zrange.
  replace (Z.to_nat (hi - lo)) with (Datatypes.S (Z.to_nat (hi - (lo + 1)))) by lia.
  simpl. f_equal; [lia|].
  rewrite <- seq_shift, map_map. apply map_ext. intros k. lia.
Qed.

Lemma zrange_split (lo m hi : Z) :
  lo <= m <= hi -> zrange lo hi = zrange lo m ++ zrange m hi.
Proof.
  intros H. remember (Z.to_nat (m - lo)) as n eqn:En.
  revert lo H En. induction n as [|n IH]; intros lo H En.
  - assert (lo = m) by lia. subst m. rewrite (zrange_nil lo lo) by lia. reflexivity.
  - rewrite (zrange_cons lo hi), (zrange_cons lo m) by lia.
    cbn [app]. f_equal. apply IH; lia.
Qed.

Lemma flat_map_nil {A B : Type} (g : A -> list B) (l : list A) :
  (forall a, In a l -> g a = []) -> flat_map g l = [].
Proof.
  induction l as [|a l IH]; intros H; simpl; [reflexivity|].
  rewrite (H a (or_introl eq_refl)), IH; [reflexivity|].
  intros b Hb. apply H. right. exact Hb.
Qed.

Lemma flat_map_zrange_single {B : Type} (g : Z -> list B) (lo hi m : Z) :
  lo <= m < hi ->
  (forall k, lo <= k < hi -> k <> m -> g k = []) ->
  flat_map g (zrange lo hi) = g m.
Proof.
  intros Hm Hg.
  rewrite (zrange_split lo m hi) by lia.
  rewrite (zrange_cons m hi) by lia.
  rewrite flat_map_app. simpl.
  rewrite !flat_map_nil.
  - rewrite app_nil_r. reflexivity.
  - intros a Ha. apply in_zrange in Ha. apply Hg; lia.
  - intros a Ha. apply in_zrange in Ha. apply Hg; lia.
Qed.

Lemma filter_flat_map {A B : Type} (p : B -> bool) (g : A -> list B) (l : list A) :
  List.filter p (flat_map g l) = flat_map (fun a => List.filter p (g a)) l.
Proof.
  induction l as [|a l IH]; simpl; [reflexivity|].
  rewrite List.filter_app, IH. reflexivity.
Qed.

Lemma fold_left_flat_map {A B S : Type} (f : S -> B -> S) (g : A -> list B) (l : list A) :
  forall s, fold_left f (flat_map g l) s = fold_left (fun s a => fold_left f (g a) s) l s.
Proof.
  induction l as [|a l IH]; intros s; simpl; [reflexivity|].
  rewrite fold_left_app. apply IH.
Qed.

Lemma fold_left_ext_in {A S : Type} (f g : S -> A -> S) (l : list A) :
  (forall a s, In a l -> f s a = g s a) ->
  forall s, fold_left f l s = fold_left g l s.
Proof.
  induction l as [|a l IH]; intros H s; simpl; [reflexivity|].
  rewrite H by (left; reflexivity). apply IH.
  intros b t Hb. apply H. right. exact Hb.
Qed.

Lemma fold_log_set_at (ws log : list (Z * Z * Z * (Z * Z * Z * Z))) :
  fold_left (fun v w => log_set_at v (fst w) (snd w)) ws log = log ++ ws.
Proof.
  revert log. induction ws as [|w ws IH]; intros log; simpl.
  - rewrite app_nil_r. reflexivity.
  - rewrite IH. unfold log_set_at. rewrite <- app_assoc. destruct w. reflexivity.
Qed.

Lemma process_voxel_data_fold {V : Type} (set_at : V -> Z * Z * Z -> Z * Z * Z * Z -> V)
    (volume : V) (argb : Z -> vcol) :
  (forall k, 0 <= k < VSID * VSID -> vcol_ok (argb k)) ->
  process_voxel_data set_at volume argb
  = fold_left (fun v w => set_at v (fst w) (snd w)) (grid_writes argb) volume.
Proof.
  intros Hok. unfold process_voxel_data, grid_writes.
  rewrite for_range_fold, fold_left_flat_map.
  apply fold_left_ext_in. intros y v Hy. apply in_zrange in Hy.
  rewrite for_range_fold, fold_left_flat_map.
  apply fold_left_ext_in. intros x v' Hx. apply in_zrange in Hx.
  unfold cell_writes.
  assert (Hk : 0 <= y * VSID + x < VSID * VSID) by (unfold VSID in *; nia).
  destruct (Hok _ Hk) as (_ & _ & _ & Ha).
  destruct (Z.eqb_spec (col_a (argb (y * VSID + x))) 0) as [E|E].
  - rewrite E. reflexivity.
  - replace (col_a (argb (y * VSID + x)) >? 0) with true by (symmetry; apply Z.gtb_lt; lia).
    reflexivity.
Qed.

Lemma filter_cell_writes (argb : Z -> vcol) (x y x' y' : Z) :
  List.filter (write_at x y) (cell_writes argb x' y')
  = if (x' =? x) && (y' =? y) then cell_writes argb x' y' else [].
Proof.
  unfold cell_writes. destruct (col_a (argb (y' * VSID + x')) =? 0); simpl.
  - destruct ((x' =? x) && (y' =? y)); reflexivity.
  - destruct ((x' =? x) && (y' =? y)); reflexivity.
Qed.

(** C7: over a raster of unsigned-char channels, [process_voxel_data]
    performs on the store exactly the writes of [grid_writes], in order:
    for each cell one write at [(x, y, h)] with the cell's RGB and alpha
    255 when its height channel [h] is non-zero and none when [h] is 0.
    Read off a store that logs its writes, the writes landing in column
    [(x,y)] are exactly that one write, or none. *)
Theorem process_voxel_data_writes {V : Type}
    (set_at : V -> Z * Z * Z -> Z * Z * Z * Z -> V) (volume : V) (argb : Z -> vcol) :
  (forall k, 0 <= k < VSID * VSID -> vcol_ok (argb k)) ->
  process_voxel_data set_at volume argb
  = fold_left (fun v w => set_at v (fst w) (snd w)) (grid_writes argb) volume
  /\ forall x y, 0 <= x < VSID -> 0 <= y < VSID ->
       List.filter (write_at x y) (process_voxel_data log_set_at [] argb)
       = (let c := argb (y * VSID + x) in
          if col_a c =? 0 then []
          else [((x, y, col_a c), (col_r c, col_g c, col_b c, 255))]).
Proof.
  intros Hok. split; [apply process_voxel_data_fold; exact Hok|].
  intros x y Hx Hy.
  rewrite (process_voxel_data_fold log_set_at [] argb Hok), fold_log_set_at.
  simpl app. unfold grid_writes.
  rewrite filter_flat_map.
  rewrite (flat_map_zrange_single _ 0 VSID y Hy).
  - rewrite filter_flat_map.
    rewrite (flat_map_zrange_single _ 0 VSID x Hx).
    + rewrite filter_cell_writes, !Z.eqb_refl. reflexivity.
    + intros k Hk Hne. rewrite filter_cell_writes.
      replace (k =? x) with false by (symmetry; apply Z.eqb_neq; exact Hne). reflexivity.
  - intros k Hk Hne. rewrite filter_flat_map. apply flat_map_nil.
    intros a _. rewrite filter_cell_writes.
    replace (k =? y) with false by (symmetry; apply Z.eqb_neq; exact Hne).
    rewrite andb_false_r. reflexivity.
Qed.

Lemma process_voxel_data_writes_witness :
  let argb := fun k : Z => if k =? 513 then mkvcol 1 2 3 10 else mkvcol 9 9 9 0 in
  List.filter (write_at 1 1) (process_voxel_data log_set_at [] argb)
    = [((1, 1, 10), (3, 2, 1, 255))]
  /\ List.filter (write_at 2 1) (process_voxel_data log_set_at [] argb) = [].
Proof.
  intros argb.
  assert (Hok : forall k, 0 <= k < VSID * VSID -> vcol_ok (argb k)).
  { intros k _. unfold argb, vcol_ok. destruct (k =? 513); simpl; lia. }
  pose proof (process_voxel_data_writes log_set_at [] argb Hok) as [_ H].
  split.
  - apply (H 1 1); unfold VSID; lia.
  - apply (H 2 1); unfold VSID; lia.
Defined.

(** ** Pixel stores of the first pass *)

Lemma Qgtb_true (a b : Q) : Qgtb a b = true <-> (b < a)%Q.
Proof.
  unfold Qgtb. rewrite negb_true_iff. split.
  - intros H. apply Qnot_le_lt. intros Hle. apply Qle_bool_iff in Hle. congruence.
  - intros H. destruct (Qle_bool a b) eqn:E; [|reflexivity].
    apply Qle_bool_iff in E. exfalso. exact (Qlt_not_le _ _ H E).
Qed.

Lemma Qgtb_false (a b : Q) : Qgtb a b = false <-> (a <= b)%Q.
Proof.
  unfold Qgtb. rewrite negb_false_iff. apply Qle_bool_iff.
Qed.

(** [min(max(v,0),hi)] lies between 0 and [hi]. *)
Lemma clamp_range (v hi : Q) :
  (0 <= hi)%Q -> (0 <= fmin (fmax v 0) hi)%Q /\ (fmin (fmax v 0) hi <= hi)%Q.
Proof.
  intros Hhi. unfold fmin, fmax.
  destruct (Qgtb v 0) eqn:E1.
  - apply Qgtb_true in E1. destruct (Qgtb hi v) eqn:E2.
    + apply Qgtb_true in E2. split; apply Qlt_le_weak; assumption.
    + split; [exact Hhi | apply Qle_refl].
  - destruct (Qgtb hi 0) eqn:E2.
    + split; [apply Qle_refl | exact Hhi].
    + split; [exact Hhi | apply Qle_refl].
Qed.

Lemma Qtrunc_range (q : Q) (n : Z) :
  (0 <= q)%Q -> (q <= inject_Z n)%Q -> 0 <= Qtrunc q <= n.
Proof.
  destruct q as [a d]. unfold Qle, Qtrunc, inject_Z. simpl. intros H0 Hn.
  rewrite Z.mul_1_r in H0, Hn.
  rewrite Z.quot_div_nonneg by lia.
  split.
  - apply Z.div_pos; lia.
  - apply Z.div_le_upper_bound; lia.
Qed.

(** A clamped value converts to [unsigned char] without loss. *)
Lemma uchar_of_clamp (v : Q) (hi : Z) :
  0 <= hi <= 255 ->
  uchar_of_Q (fmin (fmax v 0) (inject_Z hi)) = Qtrunc (fmin (fmax v 0) (inject_Z hi))
  /\ 0 <= uchar_of_Q (fmin (fmax v 0) (inject_Z hi)) <= hi.
Proof.
  intros Hhi.
  assert (H0 : (0 <= inject_Z hi)%Q) by (unfold Qle, inject_Z; simpl; lia).
  destruct (clamp_range v (inject_Z hi) H0) as [Ha Hb].
  pose proof (Qtrunc_range _ hi Ha Hb) as Hr.
  unfold uchar_of_Q. rewrite to_uchar_small by lia. split; [reflexivity | exact Hr].
Qed.


(** The six colour stores of a cell are clamped stores. *)
Lemma store_cell_colours (gr gg gb dl samp0 : Q) :
  let a := fst (store_cell gr gg gb dl samp0) in
  let c := snd (store_cell gr gg gb dl samp0) in
  let maxa := Z.max (Z.max (col_r a) (col_g a)) (col_b a) in
  (col_r a = Qtrunc (fmin (fmax (gr * 0.3) 0) 255) /\ 0 <= col_r a <= 255)
  /\ (col_g a = Qtrunc (fmin (fmax (gg * 0.3) 0) 255) /\ 0 <= col_g a <= 255)
  /\ (col_b a = Qtrunc (fmin (fmax (gb * 0.3) 0) 255) /\ 0 <= col_b a <= 255)
  /\ (col_r c = Qtrunc (fmin (fmax (gr * dl) 0) (inject_Z (255 - maxa)))
      /\ 0 <= col_r c <= 255 - maxa)
  /\ (col_g c = Qtrunc (fmin (fmax (gg * dl) 0) (inject_Z (255 - maxa)))
      /\ 0 <= col_g c <= 255 - maxa)
  /\ (col_b c = Qtrunc (fmin (fmax (gb * dl) 0) (inject_Z (255 - maxa)))
      /\ 0 <= col_b c <= 255 - maxa).
Proof.
  intros a c maxa.
  assert (H255 : 0 <= 255 <= 255) by lia.
  pose proof (uchar_of_clamp (gr * 0.3) 255 H255) as Hr.
  pose proof (uchar_of_clamp (gg * 0.3) 255 H255) as Hg.
  pose proof (uchar_of_clamp (gb * 0.3) 255 H255) as Hb.
  change (inject_Z 255) with 255%Q in Hr, Hg, Hb.
  assert (Hm : 0 <= 255 - maxa <= 255).
  { subst maxa a. unfold store_cell. simpl. lia. }
  pose proof (uchar_of_clamp (gr * dl) (255 - maxa) Hm) as Hcr.
  pose proof (uchar_of_clamp (gg * dl) (255 - maxa) Hm) as Hcg.
  pose proof (uchar_of_clamp (gb * dl) (255 - maxa) Hm) as Hcb.
  repeat split; try (apply Hr || apply Hg || apply Hb || apply Hcr || apply Hcg || apply Hcb).
Qed.



(** ** Arrays and grid passes *)

Lemma aget_aset {A : Type} (d : A) (m : gmap Z A) (i j : Z) (v : A) :
  aget d (aset m i v) j = if j =? i then v else aget d m j.
Proof.
  unfold aget, aset. destruct (Z.eqb_spec j i) as [->|Hne].
  - rewrite lookup_insert_eq. reflexivity.
  - rewrite lookup_insert_ne by congruence. reflexivity.
Qed.

Lemma tget_tset (m : gmap Z Z) (i j v : Z) :
  tget (tset m i v) j = if j =? i then v else tget m j.
Proof. apply aget_aset. Qed.

Lemma tget_empty (i : Z) : tget ∅ i = 0.
Proof. unfold tget, aget. rewrite lookup_empty. reflexivity. Qed.

(** A pass over the grid, row by row, seen as one loop over the linear
    index [k = y*VSID + x]. *)
Lemma grid_loop_ind {S : Type} (P : Z -> S -> Prop) (body : Z -> Z -> S -> S) (s : S) :
  P 0 s ->
  (forall x y t, 0 <= x < VSID -> 0 <= y < VSID ->
     P (y * VSID + x) t -> P (y * VSID + x + 1) (body x y t)) ->
  P (VSID * VSID)
    (for_range 0 VSID (fun y s => for_range 0 VSID (fun x s => body x y s) s) s).
Proof.
  intros H0 Hstep.
  apply (for_range_ind (fun y t => P (y * VSID) t)); [unfold VSID; lia | exact H0 |].
  intros y t Hy Hp.
  replace ((y + 1) * VSID) with (y * VSID + VSID) by lia.
  apply (for_range_ind (fun x t => P (y * VSID + x) t)); [unfold VSID; lia | |].
  - replace (y * VSID + 0) with (y * VSID) by lia. exact Hp.
  - intros x t' Hx Hp'. rewrite Z.add_assoc. apply Hstep; assumption.
Qed.

Lemma upd_eq {A : Type} (f : Z -> A) (i : Z) (v : A) : upd f i v i = v.
Proof. unfold upd. rewrite Z.eqb_refl. reflexivity. Qed.

Lemma upd_ne {A : Type} (f : Z -> A) (i j : Z) (v : A) : j <> i -> upd f i v j = f j.
Proof. intros H. unfold upd. destruct (Z.eqb_spec j i); [contradiction | reflexivity]. Qed.

(** ** Shadow factors *)

Lemma shadow_pass_range (hgt : Z -> Q) (k : Z) :
  0 <= tget (shadow_pass hgt) k <= 32.
Proof.
  revert k. unfold shadow_pass.
  apply (grid_loop_ind (fun _ sh => forall k, 0 <= tget sh k <= 32)).
  - intros k. rewrite tget_empty. lia.
  - intros x y sh _ _ IH k.
    destruct (shadow_march _ _ _ _ _ _ _); [|apply IH].
    rewrite tget_tset. destruct (k =? y * VSID + x); [lia | apply IH].
Qed.

Lemma blur_value_range (a b c d : Z) :
  0 <= a <= 32 -> 0 <= b <= 32 -> 0 <= c <= 32 -> 0 <= d <= 32 ->
  0 <= to_uchar (Z.shiftr (a + b + c + d + 2) 2) <= 32.
Proof.
  intros Ha Hb Hc Hd. rewrite Z.shiftr_div_pow2 by lia. change (2 ^ 2) with 4.
  assert (0 <= (a + b + c + d + 2) / 4 < 33).
  { split; [apply Z.div_pos; lia|]. apply Z.div_lt_upper_bound; lia. }
  rewrite to_uchar_small; lia.
Qed.

(** Every shadow factor the composite reads is at most 32. *)
Lemma blur_pass_range (sh : gmap Z Z) :
  (forall k, 0 <= tget sh k <= 32) ->
  forall k, 0 <= tget (blur_pass sh) k <= 32.
Proof.
  intros H. unfold blur_pass.
  apply (grid_loop_ind (fun _ sh => forall k, 0 <= tget sh k <= 32)); [exact H|].
  intros x y t _ _ IH k. unfold blur_cell.
  rewrite tget_tset. destruct (k =? y * VSID + x); [|apply IH].
  apply blur_value_range; apply IH.
Qed.

Lemma shadow_factor_range (hgt : Z -> Q) (k : Z) :
  0 <= tget (blur_pass (shadow_pass hgt)) k <= 32.
Proof. apply blur_pass_range. apply shadow_pass_range. Qed.

(** ** Composite *)

Lemma first_pass_spec (cell : Z -> Q * Q * Q * Q * Q) (amb0 buf0 : Z -> vcol) (k : Z) :
  0 <= k < VSID * VSID ->
  fst (first_pass cell (amb0, buf0)) k = fst (store_at (cell k))
  /\ snd (first_pass cell (amb0, buf0)) k = snd (store_at (cell k)).
Proof.
  revert k. unfold first_pass.
  apply (grid_loop_ind (fun n ab => forall k, 0 <= k < n ->
           fst ab k = fst (store_at (cell k)) /\ snd ab k = snd (store_at (cell k)))).
  - intros k Hk. lia.
  - intros x y ab Hx Hy IH k Hk. unfold store_at in *.
    destruct (cell (y * VSID + x)) as [[[[gr gg] gb] dl] samp0] eqn:Ec.
    destruct (store_cell gr gg gb dl samp0) as [a c] eqn:Es. simpl fst. simpl snd.
    destruct (Z.eq_dec k (y * VSID + x)) as [->|Hne].
    + rewrite !upd_eq, Ec, Es. split; reflexivity.
    + rewrite !upd_ne by exact Hne. apply IH. lia.
Qed.

Lemma composite_pass_spec (amb : Z -> vcol) (sh : gmap Z Z) (buf : Z -> vcol) (k : Z) :
  0 <= k < VSID * VSID ->
  composite_pass amb sh buf k = composite_cell (buf k) (amb k) (tget sh k).
Proof.
  intros Hk.
  assert (H : forall j,
             (0 <= j < VSID * VSID ->
              composite_pass amb sh buf j = composite_cell (buf j) (amb j) (tget sh j))
             /\ (VSID * VSID <= j -> composite_pass amb sh buf j = buf j)).
  { unfold composite_pass.
    apply (grid_loop_ind (fun n b => forall j,
             (0 <= j < n -> b j = composite_cell (buf j) (amb j) (tget sh j))
             /\ (n <= j -> b j = buf j))).
    - intros j. split; [lia | reflexivity].
    - intros x y b Hx Hy IH j.
      destruct (Z.eq_dec j (y * VSID + x)) as [->|Hne].
      + rewrite upd_eq. split; [|lia]. intros _.
        rewrite (proj2 (IH (y * VSID + x))) by lia. reflexivity.
      + rewrite upd_ne by exact Hne. split; intros Hj; apply IH; lia. }
  apply H. exact Hk.
Qed.

(** One channel of the composite: a lit channel [c <= 255 - maxa], an
    ambient channel [a <= maxa] and a factor [s <= 32] give a sum that
    fits in eight bits. *)
Lemma composite_channel_fits (c a maxa s : Z) :
  0 <= s <= 32 -> 0 <= a <= maxa -> 0 <= c <= 255 - maxa ->
  0 <= Z.shiftr (c * (256 - Z.shiftl s 2)) 8 + a <= 255
  /\ to_uchar (Z.shiftr (c * (256 - Z.shiftl s 2)) 8 + a)
     = Z.shiftr (c * (256 - Z.shiftl s 2)) 8 + a.
Proof.
  intros Hs Ha Hc.
  rewrite Z.shiftl_mul_pow2 by lia. rewrite Z.shiftr_div_pow2 by lia.
  change (2 ^ 2) with 4. change (2 ^ 8) with 256.
  assert (H : 0 <= c * (256 - s * 4) / 256 <= c).
  { split; [apply Z.div_pos; nia|]. apply Z.div_le_upper_bound; nia. }
  split; [lia|]. apply to_uchar_small. lia.
Qed.

(** C9: for every cell [k] of the grid, whatever the blended colour, the
    light factor and the heights, the shadow factor read by the composite
    is at most 32, each lit channel of the first pass is at most 255 minus
    the cell's largest ambient channel, and each colour channel of the
    composited pixel is [((lit*(256 - 4*factor)) >> 8) + ambient] itself,
    at most 255: the 8-bit store loses nothing. *)
Theorem composite_fits_in_byte (cell : Z -> Q * Q * Q * Q * Q) (hgt : Z -> Q)
    (amb0 buf0 : Z -> vcol) (k : Z) :
  0 <= k < VSID * VSID ->
  let a := fst (store_at (cell k)) in
  let c := snd (store_at (cell k)) in
  let maxa := Z.max (Z.max (col_r a) (col_g a)) (col_b a) in
  let s := tget (blur_pass (shadow_pass hgt)) k in
  let p := shaded_raster cell hgt amb0 buf0 k in
  0 <= s <= 32
  /\ (col_r c <= 255 - maxa /\ col_g c <= 255 - maxa /\ col_b c <= 255 - maxa)
  /\ (col_r p = Z.shiftr (col_r c * (256 - Z.shiftl s 2)) 8 + col_r a /\ 0 <= col_r p <= 255)
  /\ (col_g p = Z.shiftr (col_g c * (256 - Z.shiftl s 2)) 8 + col_g a /\ 0 <= col_g p <= 255)
  /\ (col_b p = Z.shiftr (col_b c * (256 - Z.shiftl s 2)) 8 + col_b a /\ 0 <= col_b p <= 255).
Proof.
  intros Hk a c maxa s p.
  assert (Hs : 0 <= s <= 32) by apply shadow_factor_range.
  assert (Hp : p = composite_cell c a s).
  { subst p. unfold shaded_raster.
    pose proof (first_pass_spec cell amb0 buf0 k Hk) as [Ha Hc].
    destruct (first_pass cell (amb0, buf0)) as [amb buf]. simpl in Ha, Hc.
    rewrite composite_pass_spec by exact Hk. rewrite Ha, Hc. reflexivity. }
  subst a c. unfold store_at in *. destruct (cell k) as [[[[gr gg] gb] dl] samp0].
  destruct (store_cell_colours gr gg gb dl samp0)
    as ((_ & Har) & (_ & Hag) & (_ & Hab) & (_ & Hcr) & (_ & Hcg) & (_ & Hcb)).
  cbv zeta in Har, Hag, Hab, Hcr, Hcg, Hcb.
  set (a := fst (store_cell gr gg gb dl samp0)) in *.
  set (c := snd (store_cell gr gg gb dl samp0)) in *.
  fold maxa in Hcr, Hcg, Hcb.
  assert (Hma : col_r a <= maxa /\ col_g a <= maxa /\ col_b a <= maxa) by (subst maxa; lia).
  split; [exact Hs|]. split; [lia|].
  rewrite Hp. unfold composite_cell. cbv zeta. cbn [col_r col_g col_b].
  destruct (composite_channel_fits (col_r c) (col_r a) maxa s) as [Hr1 Hr2]; [lia ..|].
  destruct (composite_channel_fits (col_g c) (col_g a) maxa s) as [Hg1 Hg2]; [lia ..|].
  destruct (composite_channel_fits (col_b c) (col_b a) maxa s) as [Hb1 Hb2]; [lia ..|].
  rewrite Hr2, Hg2, Hb2. repeat split; lia.
Qed.

Lemma composite_fits_in_byte_witness :
  let cell := fun _ : Z => (140, 125, 115, 12 # 10, 30)%Q in
  let hgt := fun k : Z => if k =? 511 then 100%Q else 0%Q in
  let blank := fun _ : Z => mkvcol 0 0 0 0 in
  0 <= col_r (shaded_raster cell hgt blank blank 0) <= 255
  /\ 0 <= col_g (shaded_raster cell hgt blank blank 0) <= 255
  /\ 0 <= col_b (shaded_raster cell hgt blank blank 0) <= 255.
Proof.
  intros cell hgt blank.
  assert (Hk : 0 <= 0 < VSID * VSID) by (unfold VSID; lia).
  pose proof (composite_fits_in_byte cell hgt blank blank 0 Hk) as H.
  cbv zeta in H. destruct H as (_ & _ & (_ & Hr) & (_ & Hg) & (_ & Hb)).
  split; [exact Hr|]. split; [exact Hg | exact Hb].
Defined.

(** ** Shadow march *)

Lemma march_index (x y i : Z) :
  Z.shiftl (Z.land (y - Z.shiftr i 1) (VSID - 1)) VSHL + Z.land (x - i) (VSID - 1)
  = march_cell x y i.
Proof.
  unfold march_cell, VSID, VSHL. change (512 - 1) with (Z.ones 9).
  rewrite !Z.land_ones by lia. rewrite Z.shiftl_mul_pow2 by lia.
  rewrite Z.shiftr_div_pow2 by lia. reflexivity.
Qed.

Lemma Qgtb_proper (a b a' b' : Q) : (a == a')%Q -> (b == b')%Q -> Qgtb a b = Qgtb a' b'.
Proof.
  intros Ha Hb. destruct (Qgtb a' b') eqn:E.
  - apply Qgtb_true in E. apply Qgtb_true. rewrite Ha, Hb. exact E.
  - apply Qgtb_false in E. apply Qgtb_false. rewrite Ha, Hb. exact E.
Qed.

Lemma for_up_last {S : Type} (body : Z -> S -> S) (n : nat) :
  forall (i : Z) (s : S),
    for_up (Datatypes.S n) i body s = body (i + Z.of_nat n) (for_up n i body s).
Proof.
  induction n as [|n IH]; intros i s.
  - simpl. f_equal. lia.
  - change (for_up (Datatypes.S (Datatypes.S n)) i body s)
      with (for_up (Datatypes.S n) (i + 1) body (body i s)).
    rewrite IH. cbn [for_up]. f_equal. lia.
Qed.

(** One more addition of [.44] gives the next threshold. *)
Lemma march_threshold_next (h : Q) (i : Z) :
  0 <= i -> march_threshold h (i + 1) = fadd044 (march_threshold h i).
Proof.
  intros Hi. unfold march_threshold, for_range.
  replace (Z.to_nat (i + 1 - 0)) with (Datatypes.S (Z.to_nat (i - 0))) by lia.
  apply for_up_last.
Qed.

Lemma shadow_march_iff (hgt : Z -> Q) (x y : Z) (h : Q) (fuel : nat) :
  forall (i : Z) (f : Q),
    1 <= i <= 128 ->
    f = march_threshold h i ->
    128 - i <= Z.of_nat fuel ->
    shadow_march fuel hgt x y i i f = true
    <-> exists m, i <= m < 128 /\ (march_threshold h m < hgt (march_cell x y m))%Q.
Proof.
  induction fuel as [|fuel IH]; intros i f Hi Hf Hfuel.
  - simpl. split; [discriminate|]. intros (m & Hm & _). lia.
  - cbn [shadow_march]. change (Z.shiftr VSID 2) with 128.
    destruct (Z.ltb_spec i 128) as [Hlt|Hge]; cbn [negb].
    2:{ split; [discriminate|]. intros (m & Hm & _). lia. }
    rewrite march_index.
    destruct (Qgtb (hgt (march_cell x y i)) f) eqn:E.
    + split; [intros _|reflexivity]. exists i. split; [lia|].
      apply Qgtb_true in E. rewrite <- Hf. exact E.
    + apply Qgtb_false in E. rewrite Hf in E.
      rewrite (IH (i + 1) (fadd044 f)); [| lia | | lia].
      * split; intros (m & Hm & Hgt); exists m; (split; [|exact Hgt]); [lia|].
        destruct (Z.eq_dec m i) as [->|Hne]; [|lia].
        exfalso. exact (Qlt_not_le _ _ Hgt E).
      * rewrite Hf. symmetry. apply march_threshold_next. lia.
Qed.

Lemma shadow_cell_iff (hgt : Z -> Q) (x y : Z) :
  (shadow_cell hgt x y = 32 \/ shadow_cell hgt x y = 0)
  /\ (shadow_cell hgt x y = 32
      <-> exists i, 1 <= i < VSID / 4
            /\ (march_threshold (hgt (y * VSID + x)%Z) i < hgt (march_cell x y i))%Q).
Proof.
  unfold shadow_cell. change (VSID / 4) with 128.
  pose proof (shadow_march_iff hgt x y (hgt (y * VSID + x)) (Z.to_nat VSID) 1
                (fadd044 (hgt (y * VSID + x)))) as H.
  destruct (shadow_march (Z.to_nat VSID) hgt x y 1 1 (fadd044 (hgt (y * VSID + x)))).
  - split; [left; reflexivity|]. split; [intros _|reflexivity].
    apply H; [lia | reflexivity | unfold VSID; lia | reflexivity].
  - split; [right; reflexivity|]. split; [discriminate|]. intros Hex.
    apply H in Hex; [discriminate | lia | reflexivity | unfold VSID; lia].
Qed.

Lemma grid_index_inj (x y x' y' : Z) :
  0 <= x < VSID -> 0 <= x' < VSID -> y * VSID + x = y' * VSID + x' -> x = x' /\ y = y'.
Proof. unfold VSID. lia. Qed.

Lemma shadow_pass_cell (hgt : Z -> Q) (x y : Z) :
  0 <= x < VSID -> 0 <= y < VSID ->
  tget (shadow_pass hgt) (y * VSID + x) = shadow_cell hgt x y.
Proof.
  intros Hx Hy.
  assert (H : forall x y, 0 <= x < VSID -> 0 <= y < VSID ->
            tget (shadow_pass hgt) (y * VSID + x)
            = if y * VSID + x <? VSID * VSID then shadow_cell hgt x y else 0).
  { unfold shadow_pass.
    apply (grid_loop_ind (fun n sh => forall x y, 0 <= x < VSID -> 0 <= y < VSID ->
             tget sh (y * VSID + x) = if y * VSID + x <? n then shadow_cell hgt x y else 0)).
    - intros x' y' Hx' Hy'. rewrite tget_empty.
      destruct (Z.ltb_spec (y' * VSID + x') 0); [unfold VSID in *; lia | reflexivity].
    - intros x0 y0 sh Hx0 Hy0 IH x' y' Hx' Hy'.
      destruct (Z.eq_dec (y' * VSID + x') (y0 * VSID + x0)) as [E|Hne].
      + destruct (grid_index_inj _ _ _ _ Hx' Hx0 E) as [-> ->].
        replace (y0 * VSID + x0 <? y0 * VSID + x0 + 1) with true
          by (symmetry; apply Z.ltb_lt; lia).
        unfold shadow_cell.
        destruct (shadow_march _ _ _ _ _ _ _) eqn:Em.
        * rewrite tget_tset, Z.eqb_refl. reflexivity.
        * rewrite IH by assumption.
          destruct (Z.ltb_spec (y0 * VSID + x0) (y0 * VSID + x0)); [lia | reflexivity].
      + assert (Hsh : tget (if shadow_march (Z.to_nat VSID) hgt x0 y0 1 1
                                 (fadd044 (hgt (y0 * VSID + x0)))
                            then tset sh (y0 * VSID + x0) 32 else sh) (y' * VSID + x')
                      = tget sh (y' * VSID + x')).
        { destruct (shadow_march _ _ _ _ _ _ _); [|reflexivity].
          rewrite tget_tset. destruct (Z.eqb_spec (y' * VSID + x') (y0 * VSID + x0));
            [contradiction | reflexivity]. }
        rewrite Hsh, IH by assumption.
        destruct (Z.ltb_spec (y' * VSID + x') (y0 * VSID + x0));
          destruct (Z.ltb_spec (y' * VSID + x') (y0 * VSID + x0 + 1)); try reflexivity; lia. }
  rewrite H by assumption.
  destruct (Z.ltb_spec (y * VSID + x) (VSID * VSID)); [reflexivity | unfold VSID in *; lia].
Qed.

(** C3 fails as stated: with one peak of height 100 at cell (1,1) of an
    otherwise flat grid, the cell (0,0) would be shadowed at step 1 of a
    march along the increasing diagonal; the code, which looks back along
    (x-i, y-i/2), leaves its factor at 0. *)
Lemma shadow_march_not_increasing_diagonal :
  let hgt := fun k : Z => if k =? 1 * VSID + 1 then 100%Q else 0%Q in
  shadow_cell_spec hgt 0 0 = 32 /\ shadow_cell hgt 0 0 = 0
  /\ shadow_cell hgt 0 0 <> shadow_cell_spec hgt 0 0.
Proof. repeat split; vm_compute; congruence. Qed.

(** The thresholds are sums in single precision: three additions of
    [.44] to the height 0 give the [float] 11072963/8388608, a little
    above 1.32, and a height of exactly that value three steps back does
    not exceed it. *)
Lemma march_threshold_rounds :
  let hgt := fun k : Z => if k =? 0 then 11072963 # 8388608 else 0%Q in
  march_threshold 0 3 = 11072963 # 8388608
  /\ (0 + 0.44 * 3 < 11072963 # 8388608)%Q
  /\ shadow_cell hgt 3 1 = 0.
Proof. repeat split; vm_compute; reflexivity. Qed.

(** C3, amended: for every cell [(x,y)] of the grid the march leaves the
    factor at 32 or at 0; it is 32 exactly when for some step [i] from 1
    to [VSID/4 - 1] the height of the cell [i] columns and [i/2] rows back
    (indices taken modulo [VSID]) exceeds the threshold of that step: the
    cell's own height with [.44] added [i] times, each sum formed in
    double precision and rounded to single precision as the [float]
    variable [f] of the source holds it. *)
Theorem shadow_pass_march (hgt : Z -> Q) (x y : Z) :
  0 <= x < VSID -> 0 <= y < VSID ->
  let s := tget (shadow_pass hgt) (y * VSID + x) in
  (s = 32 \/ s = 0)
  /\ (s = 32
      <-> exists i, 1 <= i < VSID / 4
            /\ (march_threshold (hgt (y * VSID + x)%Z) i
                < hgt (((y - i / 2) mod VSID) * VSID + (x - i) mod VSID)%Z)%Q).
Proof.
  intros Hx Hy s. subst s. rewrite shadow_pass_cell by assumption.
  apply shadow_cell_iff.
Qed.

Lemma shadow_pass_march_witness :
  let hgt := fun k : Z => if k =? 511 then 100%Q else 0%Q in
  tget (shadow_pass hgt) (0 * VSID + 0) = 32.
Proof.
  intros hgt.
  assert (Hx : 0 <= 0 < VSID) by (unfold VSID; lia).
  apply (shadow_pass_march hgt 0 0 Hx Hx).
  exists 1. split; [change (VSID / 4) with 128; lia|]. vm_compute. reflexivity.
Defined.

(** ** River mask *)

Lemma river_cap_min (d : R) : river_cap d = Rmin 1 d.
Proof.
  unfold river_cap, Rmin. destruct (Rlt_dec 1 d), (Rle_dec 1 d); lra.
Qed.

Lemma river_floor_max (d : R) : river_floor d = Rmax d 0.
Proof.
  unfold river_floor, Rmax. destruct (Rlt_dec d 0), (Rle_dec d 0); lra.
Qed.

(** C2 fails as stated: in column 256 with no river noise the code's
    factor is sin(pi)*0.52 + 0.48 = 0.48, whereas sin(x*pi/gridSize) with
    gridSize = 512 gives sin(pi/2)*0.52 + 0.48 = 1. *)
Lemma river_factor_not_grid_period :
  river_cap (river_d 256 0) = 0.48%R
  /\ river_factor_spec VSID 256 0 = 1%R
  /\ river_cap (river_d 256 0) <> river_factor_spec VSID 256 0.
Proof.
  assert (H1 : river_cap (river_d 256 0) = 0.48%R).
  { unfold river_d.
    replace (256 * (PI / 256) + 0 * 4)%R with PI by lra.
    rewrite sin_PI, river_cap_min. unfold Rmin. destruct (Rle_dec _ _); lra. }
  assert (H2 : river_factor_spec VSID 256 0 = 1%R).
  { unfold river_factor_spec, VSID.
    replace (256 * PI / 512 + 0 * 4)%R with (PI / 2)%R by lra.
    rewrite sin_PI2, river_cap_min. unfold Rmin. destruct (Rle_dec _ _); lra. }
  split; [exact H1|]. split; [exact H2|]. rewrite H1, H2. lra.
Qed.

(** C2, amended: in column [x] the factor is
    sin(x*pi/256 + river*4)*0.52 + 0.48 capped above at 1, with the
    constant 256 whatever the grid side; it multiplies the raw sample to
    give the wet sample, and floored at 0 it multiplies the raw sample to
    give the dry sample.  The factor lies between -0.04 and 1. *)
Theorem river_mask_factor (x : Z) (river samp : R) :
  let d := Rmin 1 (sin (IZR x * PI / 256 + river * 4) * 0.52 + 0.48)%R in
  river_mask x river samp = ((samp * d)%R, (samp * Rmax d 0)%R)
  /\ (-0.04 <= d <= 1)%R.
Proof.
  intros d. unfold river_mask.
  assert (Hd : river_cap (river_d x river) = d).
  { rewrite river_cap_min. subst d. unfold river_d. f_equal.
    replace (IZR x * (PI / 256))%R with (IZR x * PI / 256)%R by lra. lra. }
  rewrite Hd, river_floor_max. split; [reflexivity|].
  subst d. pose proof (SIN_bound (IZR x * PI / 256 + river * 4)) as [Hlo Hhi].
  unfold Rmin. destruct (Rle_dec _ _); lra.
Qed.

(** ** Sign stamp *)

(** With the stamp inside the grid, [signprint] stores inside [buf] and
    leaves every pixel outside the 100 by 19 rectangle as it was. *)
Lemma signprint_in_grid (x0 y0 : Z) (buf : Z -> vcol) :
  0 <= x0 -> x0 + SIGNXSIZ <= VSID -> 0 <= y0 -> y0 + SIGNYSIZ <= VSID ->
  exists buf',
    signprint x0 y0 buf = Some buf'
    /\ forall k,
         (forall dx dy, 0 <= dx < SIGNXSIZ -> 0 <= dy < SIGNYSIZ ->
            k <> (y0 + dy) * VSID + (x0 + dx)) ->
         buf' k = buf k.
Proof.
  intros Hx0 Hx1 Hy0 Hy1. unfold signprint, signprint_loops.
  set (ok := fun s : option (Z -> vcol) =>
               exists b, s = Some b
                 /\ forall k,
                      (forall dx dy, 0 <= dx < SIGNXSIZ -> 0 <= dy < SIGNYSIZ ->
                         k <> (y0 + dy) * VSID + (x0 + dx)) ->
                      b k = buf k).
  enough (H : forall ls : Z * option (Z -> vcol),
            ls = for_range 0 SIGNYSIZ
                   (fun y ls =>
                      (fst ls + VSID,
                       for_range 0 SIGNXSIZ
                         (fun x s => if sign_bit x y then sign_store (fst ls + x) s else s)
                         (snd ls)))
                   (y0 * VSID + x0, Some buf) ->
            ok (snd ls)).
  { destruct (H _ eq_refl) as (b & Hb & Hout). exists b. split; assumption. }
  intros ls ->.
  apply (for_range_ind (fun dy (ls : Z * option (Z -> vcol)) =>
           fst ls = (y0 + dy) * VSID + x0 /\ ok (snd ls))); [unfold SIGNYSIZ; lia | |].
  - cbn [fst snd]. split; [lia|]. exists buf. split; [reflexivity | intros; reflexivity].
  - intros dy [lptr s] Hdy [Hl Hs]. cbn [fst snd] in *. split; [lia|].
    apply (for_range_ind (fun _ s => ok s)); [unfold SIGNXSIZ; lia | exact Hs |].
    intros dx s' Hdx (b & -> & Hout).
    destruct (sign_bit dx dy); [|exists b; split; [reflexivity | exact Hout]].
    unfold sign_store.
    assert (Hin : 0 <= lptr + dx < VSID * VSID)
      by (subst lptr; unfold VSID, SIGNXSIZ, SIGNYSIZ in *; nia).
    replace ((0 <=? lptr + dx) && (lptr + dx <? VSID * VSID)) with true
      by (symmetry; apply andb_true_iff; split; [apply Z.leb_le | apply Z.ltb_lt]; lia).
    eexists. split; [reflexivity|]. intros k Hk.
    rewrite upd_ne; [apply Hout; exact Hk|].
    subst lptr. replace ((y0 + dy) * VSID + x0 + dx) with ((y0 + dy) * VSID + (x0 + dx)) by lia.
    apply Hk; assumption.
Qed.

(** C6 (the code departs from the claim): the one call the pipeline makes,
    [signprint(426,982)], stores 579 pixels; the first goes to index
    982*512+426+4 = 503214 and every one of them lies at or beyond
    [VSID*VSID] = 262144, the end of [buf], so that the call has no
    defined effect on the raster. *)
Theorem signprint_fixed_call_out_of_bounds :
  length (signprint_targets 426 982) = 579%nat
  /\ hd 0 (signprint_targets 426 982) = 503214
  /\ forallb (fun k => VSID * VSID <=? k) (signprint_targets 426 982) = true
  /\ forall buf, signprint 426 982 buf = None.
Proof.
  split; [vm_compute; reflexivity|].
  split; [vm_compute; reflexivity|].
  split; [vm_compute; reflexivity|].
  intros buf. vm_compute. reflexivity.
Qed.

(** ** VXL writer *)

Lemma land_shiftl_low (lo hi n : Z) :
  0 <= n -> 0 <= lo < 2 ^ n -> Z.land lo (Z.shiftl hi n) = 0.
Proof.
  intros Hn Hlo. apply Z.bits_inj'. intros m Hm.
  rewrite Z.land_spec, Z.bits_0.
  destruct (Z.lt_ge_cases m n) as [Hlt|Hge].
  - rewrite Z.shiftl_spec_low by exact Hlt. apply andb_false_r.
  - destruct (Z.eq_dec lo 0) as [->|Hnz]; [rewrite Z.bits_0; reflexivity|].
    rewrite (Z.bits_above_log2 lo m); [reflexivity | lia |].
    apply Z.log2_lt_pow2; [lia|].
    apply Z.lt_le_trans with (2 ^ n); [lia|]. apply Z.pow_le_mono_r; lia.
Qed.

(** [lo | (hi << n)] is [lo + hi * 2^n] when [lo] fits in [n] bits. *)
Lemma lor_shiftl_add (lo hi n : Z) :
  0 <= n -> 0 <= lo < 2 ^ n -> Z.lor lo (Z.shiftl hi n) = lo + hi * 2 ^ n.
Proof.
  intros Hn Hlo.
  rewrite <- Z.lxor_lor by (apply land_shiftl_low; assumption).
  rewrite <- Z.add_nocarry_lxor by (apply land_shiftl_low; assumption).
  rewrite Z.shiftl_mul_pow2 by exact Hn. reflexivity.
Qed.

Lemma vcol_long_sum (c : vcol) :
  vcol_ok c ->
  vcol_long c = col_b c + col_g c * 2 ^ 8 + col_r c * 2 ^ 16 + col_a c * 2 ^ 24.
Proof.
  intros (Hb & Hg & Hr & Ha). unfold vcol_long.
  rewrite (lor_shiftl_add (col_b c) (col_g c) 8) by lia.
  replace (Z.shiftl (col_a c) 24) with (Z.shiftl (Z.shiftl (col_a c) 8) 16)
    by (rewrite Z.shiftl_shiftl by lia; reflexivity).
  rewrite <- Z.shiftl_lor.
  rewrite (lor_shiftl_add (col_r c) (col_a c) 8) by lia.
  rewrite (lor_shiftl_add (col_b c + col_g c * 2 ^ 8) _ 16) by lia.
  lia.
Qed.

(** The colour entry of a column: blue, green, red, then the marker 0x80. *)
Lemma colour_entry_bytes (c : vcol) :
  vcol_ok c ->
  le_bytes 4 (Z.lor (Z.land (vcol_long c) 0xffffff) 0x80000000)
  = [col_b c; col_g c; col_r c; 128].
Proof.
  intros Hok. pose proof Hok as (Hb & Hg & Hr & Ha).
  rewrite vcol_long_sum by exact Hok.
  change 0xffffff with (Z.ones 24). rewrite Z.land_ones by lia.
  change 0x80000000 with (Z.shiftl 128 24).
  replace ((col_b c + col_g c * 2 ^ 8 + col_r c * 2 ^ 16 + col_a c * 2 ^ 24) mod 2 ^ 24)
    with (col_b c + col_g c * 2 ^ 8 + col_r c * 2 ^ 16).
  2:{ symmetry. rewrite Z.add_mod by lia. rewrite Z.mod_mul by lia.
      rewrite Z.add_0_r, Z.mod_mod by lia. apply Z.mod_small. lia. }
  rewrite lor_shiftl_add by lia.
  unfold le_bytes. change 255 with (Z.ones 8).
  rewrite !Z.land_ones by lia. rewrite !Z.shiftr_div_pow2 by lia.
  repeat f_equal; Z.div_mod_to_equations; lia.
Qed.

Lemma for_up_append (e : list Z) (n : nat) :
  forall (i : Z) (fil : list Z),
    for_up n i (fun _ fil => fil ++ e) fil = fil ++ concat (List.repeat e n).
Proof.
  induction n as [|n IH]; intros i fil; simpl.
  - rewrite app_nil_r. reflexivity.
  - rewrite IH, <- app_assoc. reflexivity.
Qed.

Lemma to_ulong_below (v : Z) : -1 <= v <= VSID -> (to_ulong v <? VSID) = (0 <=? v) && (v <? VSID).
Proof.
  intros Hv. unfold to_ulong, VSID in *.
  destruct (Z.eq_dec v (-1)) as [->|Hne]; [reflexivity|].
  rewrite Z.mod_small by lia.
  destruct (Z.leb_spec 0 v); [reflexivity | lia].
Qed.

Lemma max_gtb (j zz : Z) : (if j >? zz then j else zz) = Z.max zz j.
Proof. destruct (Z.gtb_spec j zz); lia. Qed.

Lemma savevxl_zz (argb : Z -> vcol) (x y : Z) :
  0 <= x < VSID -> 0 <= y < VSID ->
  fold_left (fun zz i => savevxl_neighbours argb x y (y * VSID + x) i zz) [-1; 1]
            (col_a (argb (y * VSID + x)) + 1)
  = column_bottom argb x y + 1.
Proof.
  intros Hx Hy. unfold column_bottom, savevxl_neighbours. cbn [fold_left].
  rewrite !to_ulong_below by lia. rewrite !max_gtb.
  replace (y * VSID + x + -1) with (y * VSID + x - 1) by lia.
  replace (y * VSID + x + -1 * VSID) with (y * VSID + x - VSID) by lia.
  replace (y * VSID + x + 1 * VSID) with (y * VSID + x + VSID) by lia.
  replace ((0 <=? x + -1) && (x + -1 <? VSID)) with (0 <? x)
    by (destruct (Z.ltb_spec 0 x), (Z.leb_spec 0 (x + -1)), (Z.ltb_spec (x + -1) VSID);
        simpl; try reflexivity; lia).
  replace ((0 <=? y + -1) && (y + -1 <? VSID)) with (0 <? y)
    by (destruct (Z.ltb_spec 0 y), (Z.leb_spec 0 (y + -1)), (Z.ltb_spec (y + -1) VSID);
        simpl; try reflexivity; lia).
  replace ((0 <=? x + 1) && (x + 1 <? VSID)) with (x <? VSID - 1)
    by (destruct (Z.ltb_spec x (VSID - 1)), (Z.leb_spec 0 (x + 1)), (Z.ltb_spec (x + 1) VSID);
        simpl; try reflexivity; lia).
  replace ((0 <=? y + 1) && (y + 1 <? VSID)) with (y <? VSID - 1)
    by (destruct (Z.ltb_spec y (VSID - 1)), (Z.leb_spec 0 (y + 1)), (Z.ltb_spec (y + 1) VSID);
        simpl; try reflexivity; lia).
  destruct (0 <? x), (0 <? y), (x <? VSID - 1), (y <? VSID - 1); lia.
Qed.

Lemma column_bottom_range (argb : Z -> vcol) (x y : Z) :
  (forall k, 0 <= k < VSID * VSID -> vcol_ok (argb k)) ->
  0 <= x < VSID -> 0 <= y < VSID ->
  col_a (argb (y * VSID + x)) <= column_bottom argb x y <= 255.
Proof.
  intros Hok Hx Hy. unfold column_bottom.
  assert (Ha : forall k, 0 <= k < VSID * VSID -> 0 <= col_a (argb k) <= 255)
    by (intros k Hk; apply (Hok k Hk)).
  pose proof (Ha (y * VSID + x) ltac:(unfold VSID in *; nia)) as H0.
  destruct (Z.ltb_spec 0 x) as [H1|H1];
    [pose proof (Ha (y * VSID + x - 1) ltac:(unfold VSID in *; nia)) as N1|];
  (destruct (Z.ltb_spec 0 y) as [H2|H2];
    [pose proof (Ha (y * VSID + x - VSID) ltac:(unfold VSID in *; nia)) as N2|]);
  (destruct (Z.ltb_spec x (VSID - 1)) as [H3|H3];
    [pose proof (Ha (y * VSID + x + 1) ltac:(unfold VSID in *; nia)) as N3|]);
  (destruct (Z.ltb_spec y (VSID - 1)) as [H4|H4];
    [pose proof (Ha (y * VSID + x + VSID) ltac:(unfold VSID in *; nia)) as N4|]);
  lia.
Qed.

Lemma savevxl_column_bytes (argb : Z -> vcol) (x y : Z) (fil : list Z) :
  (forall k, 0 <= k < VSID * VSID -> vcol_ok (argb k)) ->
  0 <= x < VSID -> 0 <= y < VSID ->
  savevxl_column argb x y fil = fil ++ column_bytes argb x y.
Proof.
  intros Hok Hx Hy. unfold savevxl_column, column_bytes. cbv zeta.
  rewrite savevxl_zz by assumption.
  pose proof (column_bottom_range argb x y Hok Hx Hy) as Hb.
  assert (Hk : 0 <= y * VSID + x < VSID * VSID) by (unfold VSID in *; nia).
  pose proof (Hok _ Hk) as Hc. pose proof Hc as (_ & _ & _ & Ha).
  rewrite colour_entry_bytes by exact Hc.
  unfold for_range. rewrite for_up_append.
  replace (column_bottom argb x y + 1 - 1) with (column_bottom argb x y) by lia.
  change 255 with (Z.ones 8). rewrite Z.land_ones by lia. change (2 ^ 8) with 256.
  assert (Hcb : 0 <= column_bottom argb x y < 256) by lia.
  rewrite (Z.mod_small (column_bottom argb x y) 256 Hcb).
  rewrite (to_uchar_small 0) by lia.
  rewrite (to_uchar_small (col_a _)) by lia.
  rewrite (to_uchar_small (column_bottom _ _ _)) by lia.
  rewrite <- app_assoc.
  replace (column_bottom argb x y + 1 - col_a (argb (y * VSID + x)))
    with (column_bottom argb x y - col_a (argb (y * VSID + x)) + 1) by lia.
  reflexivity.
Qed.

Lemma fold_left_append {A : Type} (g : A -> list Z) (l : list A) :
  forall fil, fold_left (fun fil a => fil ++ g a) l fil = fil ++ flat_map g l.
Proof.
  induction l as [|a l IH]; intros fil; simpl.
  - rewrite app_nil_r. reflexivity.
  - rewrite IH, <- app_assoc. reflexivity.
Qed.

Lemma dpoint3d_bytes_length (p : dpoint3d) : length (dpoint3d_bytes p) = 24%nat.
Proof. reflexivity. Qed.

(** C5: over a raster of unsigned-char channels the file written by
    [savevxl] is, in this order: the 4-byte version tag 0x09072000, the
    grid side twice as 4-byte fields, four 24-byte vector records, and
    then for each column in row-major order (y outer, x inner) the 4-byte
    header (0, top, bottom, 0) followed by exactly [bottom - top + 1]
    colour entries of 4 bytes, each (blue, green, red, 0x80): the top 8
    bits of every entry are the marker 0x80.  Here [top] is the column's
    height channel and [top <= bottom <= 255]. *)
Theorem savevxl_layout (argb : Z -> vcol) :
  (forall k, 0 <= k < VSID * VSID -> vcol_ok (argb k)) ->
  let ipo := dpoint3d_bytes (mkpoint 256 256 (col_a (argb (256 * VSID + 256)) - 64)) in
  let ist := dpoint3d_bytes (mkpoint 1 0 0) in
  let ihe := dpoint3d_bytes (mkpoint 0 0 1) in
  let ifo := dpoint3d_bytes (mkpoint 0 (-1) 0) in
  let column x y :=
    let c := argb (y * VSID + x) in
    [0; col_a c; column_bottom argb x y; 0]
    ++ concat (List.repeat [col_b c; col_g c; col_r c; 0x80]
                 (Z.to_nat (column_bottom argb x y - col_a c + 1))) in
  savevxl argb
  = [0x00; 0x20; 0x07; 0x09] ++ [0; 2; 0; 0] ++ [0; 2; 0; 0]
    ++ ipo ++ ist ++ ihe ++ ifo
    ++ flat_map (fun y => flat_map (fun x => column x y) (zrange 0 VSID)) (zrange 0 VSID)
  /\ length ipo = 24%nat /\ length ist = 24%nat /\ length ihe = 24%nat
  /\ length ifo = 24%nat
  /\ forall x y, 0 <= x < VSID -> 0 <= y < VSID ->
       col_a (argb (y * VSID + x)) <= column_bottom argb x y <= 255.
Proof.
  intros Hok ipo ist ihe ifo column.
  split; [|repeat split; try reflexivity; apply column_bottom_range; assumption].
  unfold savevxl. cbv zeta.
  rewrite for_range_fold.
  rewrite (fold_left_ext_in _ (fun fil y => fil ++ flat_map (fun x => column x y) (zrange 0 VSID))).
  - rewrite fold_left_append. change (Z.shiftr VSID 1) with 256.
    rewrite <- !app_assoc. reflexivity.
  - intros y fil Hy. apply in_zrange in Hy.
    rewrite for_range_fold.
    rewrite (fold_left_ext_in _ (fun fil x => fil ++ column x y)).
    + apply fold_left_append.
    + intros x fil' Hx. apply in_zrange in Hx.
      apply savevxl_column_bytes; assumption.
Qed.

Lemma savevxl_layout_witness :
  let argb := fun _ : Z => mkvcol 1 2 3 10 in
  firstn 12 (savevxl argb) = [0x00; 0x20; 0x07; 0x09; 0; 2; 0; 0; 0; 2; 0; 0]
  /\ firstn 8 (skipn 108 (savevxl argb)) = [0; 10; 10; 0; 1; 2; 3; 0x80].
Proof.
  intros argb.
  assert (Hok : forall k, 0 <= k < VSID * VSID -> vcol_ok (argb k)).
  { intros k _. unfold argb, vcol_ok. simpl. lia. }
  pose proof (savevxl_layout argb Hok) as [H _]. cbv zeta in H.
  rewrite H. split; [reflexivity|].
  rewrite (zrange_cons 0 VSID) by (unfold VSID; lia).
  cbn [flat_map]. reflexivity.
Defined.

(** ** Sums over index ranges *)

Lemma zsum_empty (f : Z -> Z) (lo hi : Z) : hi <= lo -> zsum f lo hi = 0.
Proof. intros H. unfold zsum. apply for_range_empty. exact H. Qed.

Lemma for_up_sum_shift (f : Z -> Z) (n : nat) :
  forall i a, for_up n i (fun k acc => acc + f k) a = a + for_up n i (fun k acc => acc + f k) 0.
Proof.
  induction n as [|n IH]; intros i a; simpl; [lia|].
  rewrite (IH (i + 1) (a + f i)), (IH (i + 1) (0 + f i)). lia.
Qed.

Lemma zsum_first (f : Z -> Z) (lo hi : Z) :
  lo < hi -> zsum f lo hi = f lo + zsum f (lo + 1) hi.
Proof.
  intros H. unfold zsum, for_range.
  replace (Z.to_nat (hi - lo)) with (Datatypes.S (Z.to_nat (hi - (lo + 1)))) by lia.
  simpl. rewrite for_up_sum_shift. lia.
Qed.

Lemma zsum_split (f : Z -> Z) (lo m hi : Z) :
  lo <= m <= hi -> zsum f lo hi = zsum f lo m + zsum f m hi.
Proof.
  intros H. unfold zsum. rewrite !for_range_fold.
  rewrite (zrange_split lo m hi H), fold_left_app.
  rewrite <- !for_range_fold. unfold for_range. rewrite for_up_sum_shift. reflexivity.
Qed.

Lemma zsum_last (f : Z -> Z) (lo hi : Z) :
  lo <= hi -> zsum f lo (hi + 1) = zsum f lo hi + f hi.
Proof.
  intros H. rewrite (zsum_split f lo hi (hi + 1)) by lia.
  rewrite (zsum_first f hi (hi + 1)) by lia. rewrite (zsum_empty f (hi + 1)) by lia. lia.
Qed.

Lemma zsum_ext (f g : Z -> Z) (lo hi : Z) :
  (forall k, lo <= k < hi -> f k = g k) -> zsum f lo hi = zsum g lo hi.
Proof.
  intros H. unfold zsum. rewrite !for_range_fold. apply fold_left_ext_in.
  intros k acc Hk. apply in_zrange in Hk. rewrite H by exact Hk. reflexivity.
Qed.

Lemma zsum_add (f g : Z -> Z) (lo hi : Z) :
  zsum (fun k => f k + g k) lo hi = zsum f lo hi + zsum g lo hi.
Proof.
  destruct (Z.le_gt_cases hi lo) as [H|H]; [rewrite !zsum_empty by exact H; reflexivity|].
  assert (Hle : lo <= hi) by lia. clear H.
  apply (for_range_ind (fun n acc => acc = zsum f lo n + zsum g lo n)); [exact Hle | |].
  - rewrite !zsum_empty by lia. reflexivity.
  - intros j t Hj ->. rewrite !zsum_last by lia. lia.
Qed.

Lemma zsum_sub (f g : Z -> Z) (lo hi : Z) :
  zsum (fun k => f k - g k) lo hi = zsum f lo hi - zsum g lo hi.
Proof.
  assert (H : zsum f lo hi = zsum (fun k => f k - g k) lo hi + zsum g lo hi).
  { rewrite <- zsum_add. apply zsum_ext. intros k _. lia. }
  lia.
Qed.

Lemma zsum_zero (lo hi : Z) : zsum (fun _ => 0) lo hi = 0.
Proof.
  destruct (Z.le_gt_cases hi lo) as [H|H]; [apply zsum_empty; exact H|].
  apply (for_range_ind (fun _ acc => acc = 0)); [lia | reflexivity |]. intros j t _ ->. reflexivity.
Qed.

(** A sum of terms that vanish except at [m] is the term at [m]. *)
Lemma zsum_single (f : Z -> Z) (lo hi m : Z) :
  lo <= m < hi -> (forall k, lo <= k < hi -> k <> m -> f k = 0) -> zsum f lo hi = f m.
Proof.
  intros Hm Hz.
  rewrite (zsum_split f lo m hi) by lia. rewrite (zsum_first f m hi) by lia.
  rewrite (zsum_ext f (fun _ => 0) lo m) by (intros k Hk; apply Hz; lia).
  rewrite (zsum_ext f (fun _ => 0) (m + 1) hi) by (intros k Hk; apply Hz; lia).
  rewrite !zsum_zero. lia.
Qed.

(** Changing one term of a sum. *)
Lemma zsum_upd {A : Type} (F : A -> Z) (f : Z -> A) (n : Z) (v : A) (lo hi : Z) :
  lo <= n < hi ->
  zsum (fun k => F (upd f n v k)) lo hi = zsum (fun k => F (f k)) lo hi - F (f n) + F v.
Proof.
  intros Hn.
  assert (H : zsum (fun k => F (upd f n v k)) lo hi
              = zsum (fun k => F (f k) + (if k =? n then F v - F (f n) else 0)) lo hi).
  { apply zsum_ext. intros k _. unfold upd. destruct (k =? n) eqn:E; [|lia].
    apply Z.eqb_eq in E. subst k. lia. }
  rewrite H, zsum_add.
  rewrite (zsum_single (fun k => if k =? n then F v - F (f n) else 0) lo hi n Hn).
  - rewrite Z.eqb_refl. lia.
  - intros k _ Hne. destruct (Z.eqb_spec k n); [contradiction | reflexivity].
Qed.

Lemma zsum_nonneg (f : Z -> Z) (lo hi : Z) :
  (forall k, lo <= k < hi -> 0 <= f k) -> 0 <= zsum f lo hi.
Proof.
  intros H. destruct (Z.le_gt_cases hi lo) as [Hle|Hlt]; [rewrite zsum_empty by exact Hle; lia|].
  apply (for_range_ind (fun _ acc => 0 <= acc)); [lia | lia |].
  intros j t Hj Ht. specialize (H j Hj). lia.
Qed.

(** ** Arithmetic on [long] *)

#[local] Instance same_long_equiv : Equivalence same_long.
Proof.
  split.
  - intros a. apply same_long_mod. reflexivity.
  - intros a b [H]. apply same_long_mod. congruence.
  - intros a b c [H1] [H2]. apply same_long_mod. congruence.
Qed.

#[local] Instance same_long_add : Proper (same_long ==> same_long ==> same_long) Z.add.
Proof.
  intros a a' [Ha] b b' [Hb]. apply same_long_mod.
  rewrite (Zplus_mod a), (Zplus_mod a'), Ha, Hb. reflexivity.
Qed.

#[local] Instance same_long_sub : Proper (same_long ==> same_long ==> same_long) Z.sub.
Proof.
  intros a a' [Ha] b b' [Hb]. apply same_long_mod.
  rewrite (Zminus_mod a), (Zminus_mod a'), Ha, Hb. reflexivity.
Qed.

#[local] Instance same_long_opp : Proper (same_long ==> same_long) Z.opp.
Proof.
  intros a a' [Ha]. apply same_long_mod.
  replace (- a) with (0 - a) by lia. replace (- a') with (0 - a') by lia.
  rewrite (Zminus_mod 0 a), (Zminus_mod 0 a'), Ha. reflexivity.
Qed.

Lemma wrap_long_range (v : Z) : - 2 ^ 31 <= wrap_long v < 2 ^ 31.
Proof.
  unfold wrap_long. pose proof (Z.mod_pos_bound (v + 2 ^ 31) (2 ^ 32) ltac:(lia)). lia.
Qed.

(** A value that fits a [long] is stored as it is. *)
Lemma wrap_long_small (v : Z) : - 2 ^ 31 <= v < 2 ^ 31 -> wrap_long v = v.
Proof. intros H. unfold wrap_long. rewrite Z.mod_small by lia. lia. Qed.

Lemma wrap_long_same (v : Z) : same_long (wrap_long v) v.
Proof.
  apply same_long_mod. unfold wrap_long.
  rewrite Zminus_mod, Z.mod_mod by lia. rewrite <- Zminus_mod. f_equal. lia.
Qed.

Lemma wrap_long_eq (a b : Z) : same_long a b -> wrap_long a = wrap_long b.
Proof.
  intros [H]. unfold wrap_long.
  rewrite (Zplus_mod a), (Zplus_mod b), H. reflexivity.
Qed.

(** Sums and differences of [long]s, each stored in a [long], end as the
    exact result stored once. *)
Ltac long_arith :=
  unfold ladd, lsub, lneg; apply wrap_long_eq; rewrite ?wrap_long_same;
  try reflexivity.

(** ** Cutting a box *)

Lemma in_boxb_iff (c : box) (r g b : Z) : in_boxb c r g b = true <-> in_box c r g b.
Proof.
  unfold in_boxb, in_box. rewrite !andb_true_iff, !Z.ltb_lt, !Z.leb_le. tauto.
Qed.

(** What the search of [Maximize] returns: a gain that is never negative,
    and either no cut (-1, gain 0) or a cut in [first, last) of positive
    gain. *)
Lemma Maximize_result (q : moments) (cube : box) (dir first last wr wg wb ww : Z) :
  let res := Maximize q cube dir first last wr wg wb ww in
  (snd res = -1 /\ (fst res == 0)%Q)
  \/ (first <= snd res < last /\ (0 < fst res)%Q).
Proof.
  cbv zeta. unfold Maximize.
  destruct (Z.le_gt_cases last first) as [Hle|Hlt].
  { rewrite for_range_empty by exact Hle. left. split; reflexivity. }
  assert (H : (fun n (s : Q * Z) =>
                 (snd s = -1 /\ (fst s == 0)%Q) \/ (first <= snd s < n /\ (0 < fst s)%Q))
              last
              (for_range first last
                 (Maximize_body q cube dir (Bot cube dir (mr q)) (Bot cube dir (mg q))
                    (Bot cube dir (mb q)) (Bot cube dir (wt q)) wr wg wb ww) (0%Q, -1))).
  { apply for_range_ind; [lia | left; split; reflexivity |].
    intros j s Hj IH. unfold Maximize_body.
    assert (Hkeep : (snd s = -1 /\ (fst s == 0)%Q) \/ (first <= snd s < j + 1 /\ (0 < fst s)%Q)).
    { destruct IH as [IH|[IH1 IH2]]; [left; exact IH | right; split; [lia | exact IH2]]. }
    destruct (_ =? 0); [exact Hkeep|].
    destruct (_ =? 0); [exact Hkeep|].
    destruct (Qgtb _ (fst s)) eqn:E; [|exact Hkeep].
    apply Qgtb_true in E. right. simpl. split; [lia|].
    destruct IH as [[_ IH]|[_ IH]].
    - rewrite IH in E. exact E.
    - apply Qlt_trans with (fst s); assumption. }
  exact H.
Qed.

Lemma Qle_bool_false (a b : Q) : Qle_bool a b = false -> (b < a)%Q.
Proof.
  intros H. apply Qnot_le_lt. intros Hle. apply Qle_bool_iff in Hle. congruence.
Qed.

(** A successful [Cut] splits the box at a plane strictly inside it. *)
Lemma Cut_some (q : moments) (set1 s1 s2 : box) :
  Cut q set1 = Some (s1, s2) -> split_of set1 s1 s2.
Proof.
  unfold Cut.
  pose proof (Maximize_result q set1 2 (r0 set1 + 1) (r1 set1)
                (Vol set1 (mr q)) (Vol set1 (mg q)) (Vol set1 (mb q)) (Vol set1 (wt q))) as Hr.
  pose proof (Maximize_result q set1 1 (g0 set1 + 1) (g1 set1)
                (Vol set1 (mr q)) (Vol set1 (mg q)) (Vol set1 (mb q)) (Vol set1 (wt q))) as Hg.
  pose proof (Maximize_result q set1 0 (b0 set1 + 1) (b1 set1)
                (Vol set1 (mr q)) (Vol set1 (mg q)) (Vol set1 (mb q)) (Vol set1 (wt q))) as Hb.
  cbv zeta in Hr, Hg, Hb.
  destruct (Maximize q set1 2 _ _ _ _ _ _) as [maxr cutr].
  destruct (Maximize q set1 1 _ _ _ _ _ _) as [maxg cutg].
  destruct (Maximize q set1 0 _ _ _ _ _ _) as [maxb cutb].
  cbn [fst snd] in Hr, Hg, Hb.
  destruct (Qle_bool maxg maxr && Qle_bool maxb maxr) eqn:E1.
  - destruct (Z.ltb_spec cutr 0) as [Hneg|Hpos]; [discriminate|].
    intros [= <- <-]. cbn [r0 r1 g0 g1 b0 b1 box_vol].
    apply split_red. destruct Hr as [[Hr _]|[Hr _]]; lia.
  - destruct (Qle_bool maxr maxg && Qle_bool maxb maxg) eqn:E2.
    + intros [= <- <-]. cbn [r0 r1 g0 g1 b0 b1 box_vol].
      apply split_green.
      apply andb_true_iff in E2. destruct E2 as [E2a E2b].
      apply Qle_bool_iff in E2a, E2b.
      destruct Hg as [[_ Hg]|[Hg _]]; [|lia]. exfalso.
      apply andb_false_iff in E1. destruct E1 as [E1|E1]; apply Qle_bool_false in E1.
      * rewrite Hg in E1. destruct Hr as [[_ Hr]|[_ Hr]].
        -- rewrite Hr in E1. exact (Qlt_irrefl _ E1).
        -- exact (Qlt_irrefl _ (Qlt_trans _ _ _ Hr E1)).
      * apply (Qlt_not_le _ _ E1). apply Qle_trans with maxg; [exact E2b|].
        rewrite Hg. destruct Hr as [[_ Hr]|[_ Hr]];
          [rewrite Hr; apply Qle_refl | apply Qlt_le_weak; exact Hr].
    + intros [= <- <-]. cbn [r0 r1 g0 g1 b0 b1 box_vol].
      apply split_blue.
      destruct Hb as [[_ Hb]|[Hb _]]; [|lia]. exfalso.
      assert (Hr0 : (0 <= maxr)%Q).
      { destruct Hr as [[_ Hr]|[_ Hr]]; [rewrite Hr; apply Qle_refl | apply Qlt_le_weak; exact Hr]. }
      assert (Hg0 : (0 <= maxg)%Q).
      { destruct Hg as [[_ Hg]|[_ Hg]]; [rewrite Hg; apply Qle_refl | apply Qlt_le_weak; exact Hg]. }
      apply andb_false_iff in E1. apply andb_false_iff in E2.
      destruct E1 as [E1|E1]; apply Qle_bool_false in E1.
      * destruct E2 as [E2|E2]; apply Qle_bool_false in E2.
        -- exact (Qlt_irrefl _ (Qlt_trans _ _ _ E1 E2)).
        -- rewrite Hb in E2. exact (Qlt_not_le _ _ E2 Hg0).
      * rewrite Hb in E1. exact (Qlt_not_le _ _ E1 Hr0).
Qed.

Lemma split_of_vol (c s1 s2 : box) :
  split_of c s1 s2 -> vol s1 = box_vol s1 /\ vol s2 = box_vol s2.
Proof. intros H. destruct H; split; reflexivity. Qed.

Lemma split_of_in_box (c s1 s2 : box) (r g b : Z) :
  split_of c s1 s2 ->
  (if in_boxb s1 r g b then 1 else 0) + (if in_boxb s2 r g b then 1 else 0)
  = if in_boxb c r g b then 1 else 0.
Proof.
  intros H.
  destruct (in_boxb s1 r g b) eqn:E1; destruct (in_boxb s2 r g b) eqn:E2;
    destruct (in_boxb c r g b) eqn:E; try reflexivity; exfalso;
    try (apply in_boxb_iff in E1); try (apply in_boxb_iff in E2); try (apply in_boxb_iff in E);
    try (apply not_true_iff_false in E1; rewrite in_boxb_iff in E1);
    try (apply not_true_iff_false in E2; rewrite in_boxb_iff in E2);
    try (apply not_true_iff_false in E; rewrite in_boxb_iff in E);
    destruct H; unfold in_box in *; cbn [r0 r1 g0 g1 b0 b1] in *; lia.
Qed.

Lemma split_of_wf (c s1 s2 : box) :
  split_of c s1 s2 -> box_wf c -> box_wf s1 /\ box_wf s2.
Proof.
  intros H Hwf. destruct H; unfold box_wf in *; cbn [r0 r1 g0 g1 b0 b1]; lia.
Qed.

(** ** The split loop *)

Lemma scan_max_spec (vv : Z -> Q) (i : Z) :
  0 <= i ->
  0 <= snd (scan_max vv i) <= i /\ fst (scan_max vv i) = vv (snd (scan_max vv i)).
Proof.
  intros Hi. unfold scan_max.
  enough (H : 0 <= snd (for_range 1 (i + 1)
                (fun k (s : Q * Z) => if Qgtb (vv k) (fst s) then (vv k, k) else s) (vv 0, 0))
              < i + 1
            /\ fst (for_range 1 (i + 1)
                (fun k (s : Q * Z) => if Qgtb (vv k) (fst s) then (vv k, k) else s) (vv 0, 0))
              = vv (snd (for_range 1 (i + 1)
                (fun k (s : Q * Z) => if Qgtb (vv k) (fst s) then (vv k, k) else s) (vv 0, 0))))
    by (split; [lia | apply H]).
  apply (for_range_ind (fun n (s : Q * Z) => 0 <= snd s < n /\ fst s = vv (snd s)));
    [lia | simpl; split; [lia | reflexivity] |] .
  intros j s Hj [IH1 IH2]. destruct (Qgtb (vv j) (fst s)); simpl; split; try lia; try reflexivity.
  exact IH2.
Qed.

Lemma genpal_start_inv (cube0 : Z -> box) (vv0 : Z -> Q) : ginv (genpal_start cube0 vv0).
Proof.
  unfold ginv, genpal_start, live. simpl. split; [lia|].
  intros k Hk. replace k with 0 by lia. rewrite upd_eq. unfold box_wf. simpl. lia.
Qed.

Lemma genpal_start_total (mu : box -> Z) (cube0 : Z -> box) (vv0 : Z -> Q) :
  total mu (genpal_start cube0 vv0) = mu (mkbox 0 32 0 32 0 32 (vol (cube0 0))).
Proof.
  unfold total, genpal_start, live. simpl.
  rewrite zsum_first by lia. rewrite zsum_empty by lia. rewrite upd_eq. lia.
Qed.

(** One trip round the loop keeps [ginv] and the total of every measure
    that a split shares out between the two halves. *)
Lemma genpal_iter_inv (q : moments) (mu : box -> Z) (s : gstate) :
  (forall c s1 s2, split_of c s1 s2 -> mu s1 + mu s2 = mu c) ->
  ginv s ->
  ginv (genpal_iter q s) /\ total mu (genpal_iter q s) = total mu s.
Proof.
  intros Hmu [Hloc Hwf]. unfold genpal_iter.
  destruct (running s) eqn:Er; cbn [negb]; [|split; [split; [rewrite Er|]|]; auto].
  unfold live in Hwf. rewrite Er in Hwf. destruct Hloc as (Hi & Hc & Hn).
  destruct (Z.ltb_spec (gi s) (colsiz s)) as [Hlt|Hge]; cbn [negb].
  2:{ assert (gi s = colsiz s) by lia.
      unfold ginv, total, live. cbn [running colsiz cube]. rewrite Er.
      split; [split; [lia|]|]; [|congruence].
      intros k Hk. apply Hwf. lia. }
  destruct (Cut q (cube s (gn s))) as [[s1 s2]|] eqn:Ecut.
  - apply Cut_some in Ecut.
    destruct (split_of_wf _ _ _ Ecut (Hwf _ Hn)) as [Hwf1 Hwf2].
    set (cube' := upd (upd (cube s) (gn s) s1) (gi s) s2).
    set (vv' := upd _ (gi s) _).
    pose proof (scan_max_spec vv' (gi s) ltac:(lia)) as [Hsn _].
    destruct (scan_max vv' (gi s)) as [f n']. cbn [snd] in Hsn.
    assert (Hwf' : forall k, 0 <= k < gi s + 1 -> box_wf (cube' k)).
    { intros k Hk. subst cube'. unfold upd.
      destruct (k =? gi s) eqn:E1; [exact Hwf2|].
      destruct (k =? gn s) eqn:E2; [exact Hwf1|].
      apply Z.eqb_neq in E1. apply Hwf. lia. }
    assert (Htot : zsum (fun k => mu (cube' k)) 0 (gi s + 1)
                   = zsum (fun k => mu (cube s k)) 0 (gi s)).
    { rewrite zsum_last by lia. subst cube'. rewrite upd_eq.
      rewrite (zsum_ext _ (fun k => mu (upd (cube s) (gn s) s1 k)) 0 (gi s))
        by (intros k Hk; rewrite upd_ne by lia; reflexivity).
      rewrite (zsum_upd mu) by lia. specialize (Hmu _ _ _ Ecut). lia. }
    destruct (Qle_bool f 0); unfold ginv, total, live; cbn [running colsiz cube gi gn];
      rewrite Er; (split; [split; [lia | exact Hwf'] | exact Htot]).
  - set (vv' := upd (vv s) (gn s) 0%Q).
    pose proof (scan_max_spec vv' (gi s - 1) ltac:(lia)) as [Hsn _].
    destruct (scan_max vv' (gi s - 1)) as [f n']. cbn [snd] in Hsn.
    replace (gi s - 1 + 1) with (gi s) by lia.
    destruct (Qle_bool f 0); unfold ginv, total, live; cbn [running colsiz cube gi gn];
      rewrite Er; (split; [split; [lia | exact Hwf] | reflexivity]).
Qed.

Lemma genpal_loop_inv (q : moments) (mu : box -> Z) (n : nat) (s : gstate) :
  (forall c s1 s2, split_of c s1 s2 -> mu s1 + mu s2 = mu c) ->
  ginv s ->
  ginv (genpal_loop q n s) /\ total mu (genpal_loop q n s) = total mu s.
Proof.
  intros Hmu Hs. induction n as [|n [IH1 IH2]]; [split; [exact Hs | reflexivity]|].
  unfold genpal_loop in *. simpl.
  destruct (genpal_iter_inv q mu _ Hmu IH1) as [H1 H2]. split; [exact H1 | congruence].
Qed.

(** *** The split loop is left *)

Lemma vpos_range (v : Q) : 0 <= vpos v <= 1.
Proof. unfold vpos. destruct (Qgtb v 0); lia. Qed.

Lemma vpos_pos (v : Q) : (0 < v)%Q -> vpos v = 1.
Proof. intros H. unfold vpos. apply Qgtb_true in H. rewrite H. reflexivity. Qed.

Lemma genpal_iter_stopped (q : moments) (s : gstate) :
  running s = false -> genpal_iter q s = s.
Proof. intros H. unfold genpal_iter. rewrite H. reflexivity. Qed.

Lemma genpal_iter_progress (q : moments) (s : gstate) :
  ginv s -> chosen_pos s -> running s = true ->
  running (genpal_iter q s) = false
  \/ (chosen_pos (genpal_iter q s) /\ trips_left (genpal_iter q s) < trips_left s).
Proof.
  intros [Hloc _] Hch Er. rewrite Er in Hloc. destruct Hloc as (Hi & Hc & Hn).
  unfold genpal_iter. rewrite Er. cbn [negb].
  destruct (Z.ltb_spec (gi s) (colsiz s)) as [Hlt|Hge]; cbn [negb]; [|left; reflexivity].
  destruct (Cut q (cube s (gn s))) as [[s1 s2]|] eqn:Ecut.
  - set (cube' := upd (upd (cube s) (gn s) s1) (gi s) s2).
    set (a := box_var q (cube' (gn s))). set (b := box_var q (cube' (gi s))).
    set (vv' := upd (upd (vv s) (gn s) a) (gi s) b).
    pose proof (scan_max_spec vv' (gi s) ltac:(lia)) as [Hsn Hsf].
    destruct (scan_max vv' (gi s)) as [f n']. cbn [fst snd] in Hsn, Hsf.
    destruct (Qle_bool f 0) eqn:Ef; [left; reflexivity|]. right.
    unfold chosen_pos, trips_left. cbn [gi gn vv]. split.
    + right. rewrite <- Hsf. apply Qle_bool_false. exact Ef.
    + rewrite zsum_last by lia. subst vv'. rewrite upd_eq.
      rewrite (zsum_ext _ (fun k => vpos (upd (vv s) (gn s) a k)) 0 (gi s))
        by (intros k Hk; rewrite upd_ne by lia; reflexivity).
      rewrite (zsum_upd vpos) by lia.
      pose proof (vpos_range a). pose proof (vpos_range b).
      pose proof (vpos_range (vv s (gn s))). lia.
  - set (vv' := upd (vv s) (gn s) 0%Q).
    pose proof (scan_max_spec vv' (gi s - 1) ltac:(lia)) as [Hsn Hsf].
    destruct (scan_max vv' (gi s - 1)) as [f n']. cbn [fst snd] in Hsn, Hsf.
    destruct (Qle_bool f 0) eqn:Ef; [left; reflexivity|]. right.
    apply Qle_bool_false in Ef.
    unfold chosen_pos, trips_left. cbn [gi gn vv].
    replace (gi s - 1 + 1) with (gi s) by lia. split.
    + right. rewrite <- Hsf. exact Ef.
    + subst vv'. rewrite (zsum_upd vpos) by lia.
      change (vpos 0%Q) with 0.
      destruct Hch as [H1|Hpos].
      * exfalso. assert (n' = 0) by lia. assert (gn s = 0) by lia. subst n'.
        rewrite Hsf in Ef. unfold upd in Ef.
        replace (0 =? gn s) with true in Ef by (symmetry; apply Z.eqb_eq; lia).
        exact (Qlt_irrefl _ Ef).
      * rewrite (vpos_pos _ Hpos). lia.
Qed.

Lemma trips_left_nonneg (s : gstate) : gi s <= 256 -> 0 <= trips_left s.
Proof.
  intros H. unfold trips_left.
  pose proof (zsum_nonneg (fun k => vpos (vv s k)) 0 (gi s)
                (fun k _ => proj1 (vpos_range (vv s k)))). lia.
Qed.

Lemma genpal_loop_stopped (q : moments) (n : nat) (s : gstate) :
  running s = false -> genpal_loop q n s = s.
Proof.
  intros H. unfold genpal_loop. induction n as [|n IH]; [reflexivity|].
  simpl. rewrite IH. apply genpal_iter_stopped. exact H.
Qed.

Lemma genpal_loop_stops_from (q : moments) (n : nat) :
  forall s, ginv s -> chosen_pos s -> trips_left s < Z.of_nat n ->
            running (genpal_loop q n s) = false.
Proof.
  induction n as [|n IH]; intros s Hinv Hch Hm.
  - destruct (running s) eqn:Er; [|exact Er]. exfalso.
    destruct Hinv as [Hloc _]. rewrite Er in Hloc.
    pose proof (trips_left_nonneg s ltac:(lia)). lia.
  - unfold genpal_loop in *. rewrite Nat.iter_succ_r.
    destruct (running s) eqn:Er.
    + destruct (genpal_iter_progress q s Hinv Hch Er) as [Hstop|[Hch' Hlt]].
      * pose proof (genpal_loop_stopped q n _ Hstop) as Hs. unfold genpal_loop in Hs.
        rewrite Hs. exact Hstop.
      * apply IH; [| exact Hch' | lia].
        apply (genpal_iter_inv q (fun _ => 0) s); [intros; reflexivity | exact Hinv].
    + rewrite genpal_iter_stopped by exact Er.
      pose proof (genpal_loop_stopped q n _ Er) as Hs. unfold genpal_loop in Hs.
      rewrite Hs. exact Er.
Qed.

(** [genpal_trips] trips are enough: the split loop has been left. *)
Lemma genpal_loop_stops (q : moments) (cube0 : Z -> box) (vv0 : Z -> Q) :
  running (genpal_loop q genpal_trips (genpal_start cube0 vv0)) = false.
Proof.
  apply genpal_loop_stops_from.
  - apply genpal_start_inv.
  - left. reflexivity.
  - unfold trips_left, genpal_start. cbn [gi vv].
    rewrite zsum_first by lia. rewrite zsum_empty by lia.
    pose proof (vpos_range (vv0 0)). unfold genpal_trips. lia.
Qed.

(** *** The boxes partition the colour cube *)

(** A sum of zeros and ones that is one has exactly one term equal to one. *)
Lemma zsum_indicator_one (p : Z -> bool) (lo hi : Z) :
  zsum (fun k => if p k then 1 else 0) lo hi = 1 ->
  exists k, lo <= k < hi /\ p k = true
            /\ forall k', lo <= k' < hi -> p k' = true -> k' = k.
Proof.
  intros Hsum.
  assert (Hlt : lo < hi).
  { destruct (Z.lt_ge_cases lo hi) as [H|H]; [exact H|]. rewrite zsum_empty in Hsum; lia. }
  assert (Hnn : forall a b, 0 <= zsum (fun k => if p k then 1 else 0) a b).
  { intros a b. apply zsum_nonneg. intros k _. destruct (p k); lia. }
  assert (Hex : exists k, lo <= k < hi /\ p k = true).
  { destruct (existsb p (zrange lo hi)) eqn:E.
    - apply existsb_exists in E. destruct E as (k & Hk & Hp). apply in_zrange in Hk. eauto.
    - exfalso. rewrite (zsum_ext _ (fun _ => 0)) in Hsum; [rewrite zsum_zero in Hsum; lia|].
      intros k Hk. destruct (p k) eqn:Ep; [|reflexivity].
      assert (existsb p (zrange lo hi) = true)
        by (apply existsb_exists; exists k; split; [apply in_zrange; exact Hk | exact Ep]).
      congruence. }
  destruct Hex as (k & Hk & Hp). exists k. split; [exact Hk|]. split; [exact Hp|].
  intros k' Hk' Hp'. destruct (Z.eq_dec k' k) as [E|Hne]; [exact E|]. exfalso.
  assert (Hcase : k' < k \/ k < k') by lia.
  destruct Hcase as [Hc|Hc].
  - rewrite (zsum_split _ lo k' hi) in Hsum by lia.
    rewrite (zsum_first _ k' hi) in Hsum by lia.
    rewrite (zsum_split _ (k' + 1) k hi) in Hsum by lia.
    rewrite (zsum_first _ k hi) in Hsum by lia.
    rewrite Hp, Hp' in Hsum.
    pose proof (Hnn lo k'). pose proof (Hnn (k' + 1) k). pose proof (Hnn (k + 1) hi). lia.
  - rewrite (zsum_split _ lo k hi) in Hsum by lia.
    rewrite (zsum_first _ k hi) in Hsum by lia.
    rewrite (zsum_split _ (k + 1) k' hi) in Hsum by lia.
    rewrite (zsum_first _ k' hi) in Hsum by lia.
    rewrite Hp, Hp' in Hsum.
    pose proof (Hnn lo k). pose proof (Hnn (k + 1) k'). pose proof (Hnn (k' + 1) hi). lia.
Qed.

(** C8: whatever the moment tables and the stack contents, after any
    number [n] of trips round the split loop of [genpal] the boxes made so
    far, [cube[0..live-1]], partition the quantized colour cube: every
    colour [(r,g,b)] of 1..32 cubed lies in one box and in no other, and
    every box lies inside the cube.  Whenever [Cut] succeeds, both boxes
    it returns carry [vol = (r1-r0)*(g1-g0)*(b1-b0)]. *)
Theorem genpal_boxes_partition (q : moments) (cube0 : Z -> box) (vv0 : Z -> Q) (n : nat) :
  let s := genpal_loop q n (genpal_start cube0 vv0) in
  (forall r g b, 1 <= r <= 32 -> 1 <= g <= 32 -> 1 <= b <= 32 ->
     exists k, 0 <= k < live s /\ in_box (cube s k) r g b
               /\ forall k', 0 <= k' < live s -> in_box (cube s k') r g b -> k' = k)
  /\ (forall k r g b, 0 <= k < live s -> in_box (cube s k) r g b ->
        1 <= r <= 32 /\ 1 <= g <= 32 /\ 1 <= b <= 32)
  /\ (forall c s1 s2, Cut q c = Some (s1, s2) ->
        vol s1 = (r1 s1 - r0 s1) * (g1 s1 - g0 s1) * (b1 s1 - b0 s1)
        /\ vol s2 = (r1 s2 - r0 s2) * (g1 s2 - g0 s2) * (b1 s2 - b0 s2)).
Proof.
  intros s. split; [|split].
  - intros r g b Hr Hg Hb.
    destruct (genpal_loop_inv q (fun c => if in_boxb c r g b then 1 else 0) n
                (genpal_start cube0 vv0)) as [_ Htot].
    { intros c s1 s2 Hs. apply split_of_in_box. exact Hs. }
    { apply genpal_start_inv. }
    rewrite genpal_start_total in Htot.
    replace (in_boxb _ r g b) with true in Htot
      by (symmetry; apply in_boxb_iff; unfold in_box; simpl; lia).
    fold s in Htot. unfold total in Htot.
    destruct (zsum_indicator_one (fun k => in_boxb (cube s k) r g b) 0 (live s) Htot)
      as (k & Hk & Hp & Huniq).
    exists k. split; [exact Hk|]. split; [apply in_boxb_iff; exact Hp|].
    intros k' Hk' Hin. apply Huniq; [exact Hk'|]. apply in_boxb_iff. exact Hin.
  - intros k r g b Hk Hin.
    destruct (genpal_loop_inv q (fun _ => 0) n (genpal_start cube0 vv0)) as [[_ Hwf] _].
    { intros; reflexivity. }
    { apply genpal_start_inv. }
    fold s in Hwf. specialize (Hwf k Hk). unfold box_wf in Hwf. unfold in_box in Hin. lia.
  - intros c s1 s2 Hcut. apply Cut_some in Hcut. apply (split_of_vol _ _ _ Hcut).
Qed.

Lemma genpal_boxes_partition_witness :
  let s := genpal_loop two_slab_moments 3
             (genpal_start (fun _ => mkbox 7 7 7 7 7 7 7) (fun _ => 3%Q)) in
  (exists k, 0 <= k < live s /\ in_box (cube s k) 1 1 1
             /\ forall k', 0 <= k' < live s -> in_box (cube s k') 1 1 1 -> k' = k)
  /\ vol (mkbox 0 1 0 32 0 32 1024) = (1 - 0) * (32 - 0) * (32 - 0).
Proof.
  intros s.
  pose proof (genpal_boxes_partition two_slab_moments
                (fun _ => mkbox 7 7 7 7 7 7 7) (fun _ => 3%Q) 3) as (H1 & _ & H3).
  split.
  - apply (H1 1 1 1); lia.
  - assert (Hcut : Cut two_slab_moments (mkbox 0 32 0 32 0 32 0)
                   = Some (mkbox 0 1 0 32 0 32 1024, mkbox 1 32 0 32 0 32 31744))
      by (vm_compute; reflexivity).
    exact (proj1 (H3 _ _ _ Hcut)).
Defined.

(** ** Moment tables *)

Lemma idx_inj (r g b r' g' b' : Z) :
  0 <= g <= 32 -> 0 <= b <= 32 -> 0 <= g' <= 32 -> 0 <= b' <= 32 ->
  idx r g b = idx r' g' b' -> r = r' /\ g = g' /\ b = b'.
Proof. unfold idx. lia. Qed.

Lemma for_range_proj {S T : Type} (proj : S -> T) (body : Z -> S -> S) (body' : Z -> T -> T)
    (lo hi : Z) (s : S) :
  (forall i s, proj (body i s) = body' i (proj s)) ->
  proj (for_range lo hi body s) = for_range lo hi body' (proj s).
Proof.
  intros H. unfold for_range. generalize (Z.to_nat (hi - lo)) as n. intros n.
  revert lo s. induction n as [|n IH]; intros lo s; simpl; [reflexivity|].
  rewrite IH, H. reflexivity.
Qed.

Lemma M3d_loops_lane (proj : m3d_state -> lane Z) (s : m3d_state) :
  (forall fz fq s, proj (m3d_lanes fz fq s) = fz (proj s)) ->
  proj (M3d_loops s) = M3d_lane (proj s).
Proof.
  intros H. unfold M3d_loops, M3d_lane.
  apply for_range_proj. intros r s1. cbv zeta.
  rewrite <- (H (lane_clear_area 0) (lane_clear_area 0%Q)).
  apply for_range_proj. intros g s2. cbv zeta.
  rewrite <- (H (lane_clear_line 0) (lane_clear_line 0%Q)).
  apply for_range_proj. intros b s3. apply H.
Qed.

Lemma M3d_tables (jz : Z) (jq : Q) (ja : gmap Z Z) (jaq : gmap Z Q) (q : moments) :
  wt (M3d jz jq ja jaq q) = tbl (M3d_lane (mklane jz ja (wt q)))
  /\ mr (M3d jz jq ja jaq q) = tbl (M3d_lane (mklane jz ja (mr q)))
  /\ mg (M3d jz jq ja jaq q) = tbl (M3d_lane (mklane jz ja (mg q)))
  /\ mb (M3d jz jq ja jaq q) = tbl (M3d_lane (mklane jz ja (mb q))).
Proof.
  unfold M3d. cbn [wt mr mg mb].
  rewrite (M3d_loops_lane l_wt), (M3d_loops_lane l_mr), (M3d_loops_lane l_mg),
    (M3d_loops_lane l_mb) by reflexivity.
  repeat split; reflexivity.
Qed.

Lemma table_at_shift (T0 : gmap Z Z) (r g b r2 g2 b2 : Z) (t : gmap Z Z) :
  (forall r' g' b', 1 <= r' <= 32 -> 1 <= g' <= 32 -> 1 <= b' <= 32 ->
     (before r' g' b' r g b <-> before r' g' b' r2 g2 b2)) ->
  table_at T0 r g b t -> table_at T0 r2 g2 b2 t.
Proof.
  intros Heq [Hc Hn]. split; [|exact Hn].
  intros r' g' b' Hr Hg Hb. specialize (Hc r' g' b' Hr Hg Hb).
  specialize (Heq r' g' b' Hr Hg Hb). split; intros H; apply Hc; tauto.
Qed.

Lemma zsum_to (f : Z -> Z) (n : Z) :
  1 <= n -> zsum f 1 (n + 1) = zsum f 1 (n - 1 + 1) + f n.
Proof.
  intros H. replace (n + 1) with ((n - 1 + 1) + 1) at 1 by lia.
  rewrite zsum_last by lia. replace (n - 1 + 1) with n by lia. reflexivity.
Qed.

Lemma line_sum_step (T0 : gmap Z Z) (r g b : Z) :
  1 <= b -> line_sum T0 r g b = line_sum T0 r g (b - 1) + hist_at T0 r g b.
Proof. intros H. unfold line_sum. apply zsum_to. exact H. Qed.

Lemma area_sum_step (T0 : gmap Z Z) (r g b : Z) :
  1 <= g -> area_sum T0 r g b = area_sum T0 r (g - 1) b + line_sum T0 r g b.
Proof. intros H. unfold area_sum. apply (zsum_to (fun g' => line_sum T0 r g' b)). exact H. Qed.

Lemma prefix_sum_step (T0 : gmap Z Z) (r g b : Z) :
  1 <= r -> prefix_sum T0 r g b = prefix_sum T0 (r - 1) g b + area_sum T0 r g b.
Proof. intros H. unfold prefix_sum. apply (zsum_to (fun r' => area_sum T0 r' g b)). exact H. Qed.

Lemma prefix_sum_margin (T0 : gmap Z Z) (r g b : Z) :
  r = 0 \/ g = 0 \/ b = 0 -> prefix_sum T0 r g b = 0.
Proof.
  intros H. unfold prefix_sum.
  destruct (Z.eq_dec r 0) as [->|Hr]; [apply zsum_empty; lia|].
  rewrite (zsum_ext _ (fun _ => 0)); [apply zsum_zero|]. intros r' _. unfold area_sum.
  destruct (Z.eq_dec g 0) as [->|Hg]; [apply zsum_empty; lia|].
  rewrite (zsum_ext _ (fun _ => 0)); [apply zsum_zero|]. intros g' _. unfold line_sum.
  assert (b = 0) by lia. subst b. apply zsum_empty. lia.
Qed.

Lemma clear_area_get (a : gmap Z Z) (b : Z) :
  0 <= b <= 32 -> aget 0 (for_range 0 33 (fun i a => aset a i 0) a) b = 0.
Proof.
  intros Hb.
  assert (H : forall k, 0 <= k < 33 ->
            aget 0 (for_range 0 33 (fun i a => aset a i 0) a) k = 0).
  { apply (for_range_ind (fun n m => forall k, 0 <= k < n -> aget 0 m k = 0)); [lia | lia |].
    intros j t Hj IH k Hk. rewrite aget_aset.
    destruct (Z.eqb_spec k j); [reflexivity | apply IH; lia]. }
  apply H. lia.
Qed.

(** One cell of the innermost loop. *)
Lemma lane_cell_step (T0 : gmap Z Z) (r g b : Z) (l : lane Z) :
  zero_margin T0 ->
  1 <= r <= 32 -> 1 <= g <= 32 -> 1 <= b <= 32 ->
  table_at T0 r g b (tbl l) ->
  line l = wrap_long (line_sum T0 r g (b - 1)) ->
  area_at T0 r g b (area l) ->
  table_at T0 r g (b + 1) (tbl (lane_cell 0 ladd r g b l))
  /\ line (lane_cell 0 ladd r g b l) = wrap_long (line_sum T0 r g (b + 1 - 1))
  /\ area_at T0 r g (b + 1) (area (lane_cell 0 ladd r g b l)).
Proof.
  intros T0_margin Hr Hg Hb [Hc Hn] Hline Harea.
  assert (Hcur : aget 0 (tbl l) (r * (33 * 33) + g * 33 + b) = hist_at T0 r g b).
  { apply (Hc r g b Hr Hg Hb). unfold before. lia. }
  assert (Hline' : line (lane_cell 0 ladd r g b l) = wrap_long (line_sum T0 r g b)).
  { unfold lane_cell. cbn [line]. rewrite Hcur, Hline, (line_sum_step T0 r g b) by lia.
    long_arith. }
  assert (Hab : aget 0 (area (lane_cell 0 ladd r g b l)) b = wrap_long (area_sum T0 r g b)).
  { unfold lane_cell. cbn [area]. rewrite aget_aset, Z.eqb_refl.
    rewrite Hcur, Hline, (proj2 (Harea b Hb)) by lia.
    rewrite (area_sum_step T0 r g b), (line_sum_step T0 r g b) by lia. long_arith. }
  assert (Hprev : aget 0 (tbl l) (r * (33 * 33) + g * 33 + b - 33 * 33)
                  = wrap_long (prefix_sum T0 (r - 1) g b)).
  { replace (r * (33 * 33) + g * 33 + b - 33 * 33) with (idx (r - 1) g b) by (unfold idx; lia).
    destruct (Z.eq_dec r 1) as [->|Hr1].
    - change (1 - 1) with 0. rewrite prefix_sum_margin by (left; reflexivity).
      change (aget 0 (tbl l) (idx 0 g b)) with (tget (tbl l) (idx 0 g b)).
      rewrite Hn; [rewrite T0_margin by lia; reflexivity|].
      intros r' g' b' Hr' Hg' Hb' E. apply idx_inj in E; lia.
    - apply (Hc (r - 1) g b); [lia | lia | lia |]. unfold before. lia. }
  split; [|split].
  - split.
    + intros r' g' b' Hr' Hg' Hb'.
      unfold lane_cell. cbn [tbl].
      change (tget ?m ?i) with (aget 0 m i). rewrite aget_aset.
      destruct (Z.eqb_spec (idx r' g' b') (r * (33 * 33) + g * 33 + b)) as [E|Hne].
      * apply idx_inj in E; [|lia ..]. destruct E as (-> & -> & ->).
        split; [intros _ | unfold before; lia].
        rewrite Hprev.
        rewrite (prefix_sum_step T0 r g b), (area_sum_step T0 r g b),
          (line_sum_step T0 r g b) by lia.
        rewrite aget_aset, Z.eqb_refl, Hcur, Hline, (proj2 (Harea b Hb)) by lia.
        long_arith.
      * assert (Hd : ~ (r' = r /\ g' = g /\ b' = b))
          by (intros (-> & -> & ->); apply Hne; reflexivity).
        destruct (Hc r' g' b' Hr' Hg' Hb') as [H1 H2].
        split; intros Hbf; [apply H1 | apply H2]; unfold before in *; lia.
    + intros j Hj. unfold lane_cell. cbn [tbl].
      change (tget ?m ?i) with (aget 0 m i). rewrite aget_aset.
      destruct (Z.eqb_spec j (r * (33 * 33) + g * 33 + b)) as [E|Hne].
      * exfalso. apply (Hj r g b Hr Hg Hb). exact E.
      * apply Hn. exact Hj.
  - replace (b + 1 - 1) with b by lia. exact Hline'.
  - intros b' Hb'. destruct (Z.eq_dec b' b) as [->|Hne].
    + rewrite Hab. split; [reflexivity | lia].
    + unfold lane_cell. cbn [area]. rewrite aget_aset.
      replace (b' =? b) with false by (symmetry; apply Z.eqb_neq; exact Hne).
      destruct (Harea b' Hb') as [H1 H2]. split; intros H; [apply H1 | apply H2]; lia.
Qed.

(** After [M3d] every cell of a table holds, as a [long] holds it, the sum
    of the histogram over the cells at or below it along all three axes;
    the other indices keep what they held. *)
Lemma M3d_lane_table (T0 : gmap Z Z) (jl : Z) (ja : gmap Z Z) :
  zero_margin T0 ->
  table_at T0 33 1 1 (tbl (M3d_lane (mklane jl ja T0))).
Proof.
  intros Hm. unfold M3d_lane.
  apply (for_range_ind (fun r l => table_at T0 r 1 1 (tbl l))); [lia | |].
  { cbn [tbl]. split.
    - intros r' g' b' Hr' Hg' Hb'. split; [unfold before; lia | reflexivity].
    - reflexivity. }
  intros r l0 Hr Hr0. cbv zeta.
  assert (Hg0 : table_at T0 r 1 1 (tbl (lane_clear_area 0 l0))
                /\ area_at T0 r 1 1 (area (lane_clear_area 0 l0))).
  { split; [exact Hr0|]. intros b' Hb'. unfold lane_clear_area. cbn [area].
    rewrite clear_area_get by lia. split; [lia|]. intros _.
    unfold area_sum. rewrite zsum_empty by lia. reflexivity. }
  generalize dependent (lane_clear_area 0 l0). clear l0 Hr0. intros l1 Hg0.
  apply (table_at_shift T0 r 33 1 (r + 1) 1 1);
    [intros r' g' b' Hr' Hg' Hb'; unfold before; lia|].
  apply (for_range_ind (fun g l => table_at T0 r g 1 (tbl l) /\ area_at T0 r g 1 (area l)));
    [lia | exact Hg0 |].
  clear l1 Hg0. intros g l1 Hg [Ht Ha]. cbv zeta.
  assert (Hb0 : table_at T0 r g 1 (tbl (lane_clear_line 0 l1))
                /\ line (lane_clear_line 0 l1) = wrap_long (line_sum T0 r g (1 - 1))
                /\ area_at T0 r g 1 (area (lane_clear_line 0 l1))).
  { split; [exact Ht|]. split; [|exact Ha].
    unfold lane_clear_line, line_sum. cbn [line]. rewrite zsum_empty by lia. reflexivity. }
  generalize dependent (lane_clear_line 0 l1). clear l1 Ht Ha. intros l2 Hb0.
  assert (Hend : table_at T0 r g 33 (tbl (for_range 1 33 (fun b l => lane_cell 0 ladd r g b l) l2))
                 /\ line (for_range 1 33 (fun b l => lane_cell 0 ladd r g b l) l2)
                    = wrap_long (line_sum T0 r g (33 - 1))
                 /\ area_at T0 r g 33 (area (for_range 1 33 (fun b l => lane_cell 0 ladd r g b l) l2))).
  { apply (for_range_ind (fun b l => table_at T0 r g b (tbl l)
                                     /\ line l = wrap_long (line_sum T0 r g (b - 1))
                                     /\ area_at T0 r g b (area l))); [lia | exact Hb0 |].
    intros b l Hb (Ht & Hl & Ha). apply lane_cell_step; try assumption; lia. }
  destruct Hend as (Ht & _ & Ha). split.
  - apply (table_at_shift T0 r g 33 r (g + 1) 1); [|exact Ht].
    intros r' g' b' Hr' Hg' Hb'. unfold before. lia.
  - intros b' Hb'. destruct (Ha b' Hb') as [Ha1 _].
    replace (g + 1 - 1) with g by lia. split; [lia|]. intros _. apply Ha1. lia.
Qed.

Lemma M3d_lane_prefix (T0 : gmap Z Z) (jl : Z) (ja : gmap Z Z) (r g b : Z) :
  zero_margin T0 ->
  0 <= r <= 32 -> 0 <= g <= 32 -> 0 <= b <= 32 ->
  tget (tbl (M3d_lane (mklane jl ja T0))) (idx r g b) = wrap_long (prefix_sum T0 r g b).
Proof.
  intros Hm Hr Hg Hb. destruct (M3d_lane_table T0 jl ja Hm) as [Hc Hn].
  destruct (Z.eq_dec r 0) as [Er|Er]; [|destruct (Z.eq_dec g 0) as [Eg|Eg];
    [|destruct (Z.eq_dec b 0) as [Eb|Eb]]].
  4:{ apply (Hc r g b); [lia | lia | lia |]. unfold before. lia. }
  all: rewrite prefix_sum_margin by lia;
    rewrite Hn; [rewrite Hm by lia; reflexivity|];
    intros r' g' b' Hr' Hg' Hb' E; apply idx_inj in E; lia.
Qed.

Lemma zsum_diff (f : Z -> Z) (a b : Z) :
  0 <= a <= b -> zsum f 1 (b + 1) - zsum f 1 (a + 1) = zsum f (a + 1) (b + 1).
Proof. intros H. rewrite (zsum_split f 1 (a + 1) (b + 1)) by lia. lia. Qed.

(** Inclusion and exclusion over the eight corners of a box: the prefix
    sums at the corners combine to the sum of the histogram over the
    box. *)
Lemma prefix_sum_box (T0 : gmap Z Z) (c : box) :
  0 <= r0 c <= r1 c -> 0 <= g0 c <= g1 c -> 0 <= b0 c <= b1 c ->
  prefix_sum T0 (r1 c) (g1 c) (b1 c) - prefix_sum T0 (r1 c) (g1 c) (b0 c)
  - prefix_sum T0 (r1 c) (g0 c) (b1 c) + prefix_sum T0 (r1 c) (g0 c) (b0 c)
  - prefix_sum T0 (r0 c) (g1 c) (b1 c) + prefix_sum T0 (r0 c) (g1 c) (b0 c)
  + prefix_sum T0 (r0 c) (g0 c) (b1 c) - prefix_sum T0 (r0 c) (g0 c) (b0 c)
  = box_sum (hist_at T0) c.
Proof.
  intros Hr Hg Hb. unfold box_sum.
  transitivity
    (zsum (fun r => (area_sum T0 r (g1 c) (b1 c) - area_sum T0 r (g0 c) (b1 c))
                    - (area_sum T0 r (g1 c) (b0 c) - area_sum T0 r (g0 c) (b0 c)))
          (r0 c + 1) (r1 c + 1)).
  { rewrite !zsum_sub. unfold prefix_sum.
    rewrite <- !(zsum_diff _ (r0 c) (r1 c)) by lia. lia. }
  apply zsum_ext. intros r _.
  transitivity
    (zsum (fun g => line_sum T0 r g (b1 c) - line_sum T0 r g (b0 c)) (g0 c + 1) (g1 c + 1)).
  { rewrite zsum_sub. unfold area_sum.
    rewrite <- !(zsum_diff _ (g0 c) (g1 c)) by lia. lia. }
  apply zsum_ext. intros g _. unfold line_sum.
  apply zsum_diff. lia.
Qed.

(** [Vol] over a table of prefix sums is the sum of the histogram over the
    box, as a [long] holds it. *)
Lemma Vol_box_sum (T0 T : gmap Z Z) (c : box) :
  (forall r g b, 0 <= r <= 32 -> 0 <= g <= 32 -> 0 <= b <= 32 ->
     tget T (idx r g b) = wrap_long (prefix_sum T0 r g b)) ->
  0 <= r0 c <= r1 c -> r1 c <= 32 -> 0 <= g0 c <= g1 c -> g1 c <= 32 ->
  0 <= b0 c <= b1 c -> b1 c <= 32 ->
  Vol c T = wrap_long (box_sum (hist_at T0) c).
Proof.
  intros HT Hr Hr1 Hg Hg1 Hb Hb1. unfold Vol.
  change (tget T (?r * (33 * 33) + ?g * 33 + ?b)) with (tget T (idx r g b)).
  rewrite !HT by lia. long_arith.
  rewrite prefix_sum_box by lia. reflexivity.
Qed.

(** ** Histogram *)

Lemma byte_range (v : Z) : 0 <= Z.land v 255 <= 255.
Proof.
  change (Z.land v 255) with (Z.land v (Z.ones 8)).
  rewrite Z.land_ones by lia. change (2 ^ 8) with 256.
  pose proof (Z.mod_pos_bound v 256 ltac:(lia)). lia.
Qed.

Lemma quant_range (v : Z) : 0 <= v <= 255 -> 1 <= quant v <= 32.
Proof.
  intros H. unfold quant. rewrite Z.shiftr_div_pow2 by lia. change (2 ^ 3) with 8.
  assert (0 <= v / 8 < 32); [|lia].
  split; [apply Z.div_pos; lia | apply Z.div_lt_upper_bound; lia].
Qed.

Lemma pix_quant_range (px : Z) :
  1 <= quant (pix_r px) <= 32 /\ 1 <= quant (pix_g px) <= 32 /\ 1 <= quant (pix_b px) <= 32.
Proof. repeat split; apply quant_range, byte_range. Qed.

Lemma fold_left_over_map {A B S : Type} (f : S -> B -> S) (g : A -> B) (l : list A) :
  forall s, fold_left f (map g l) s = fold_left (fun s a => f s (g a)) l s.
Proof. induction l as [|a l IH]; intros s; simpl; [reflexivity | apply IH]. Qed.

Lemma Hist3d_fold (mem : Z -> Z) (tt : tiletype) (q : moments) :
  Hist3d mem tt q = fold_left (fun q px => Hist3d_pixel px q) (tile_pixels mem tt) q.
Proof.
  unfold Hist3d, tile_pixels. rewrite for_range_fold, fold_left_flat_map.
  apply fold_left_ext_in. intros y q' _. rewrite for_range_fold.
  rewrite fold_left_over_map. reflexivity.
Qed.

Lemma addhist_all_fold (imgs : list ((Z -> Z) * tiletype)) (q : moments) :
  addhist_all imgs q = fold_left (fun q px => Hist3d_pixel px q) (all_pixels imgs) q.
Proof.
  unfold addhist_all, all_pixels. rewrite fold_left_flat_map.
  apply fold_left_ext_in. intros im q' _. apply Hist3d_fold.
Qed.

Lemma pixel_sum_cons (sel : Z -> bool) (val : Z -> Z) (px : Z) (pxs : list Z) :
  pixel_sum sel val (px :: pxs) = (if sel px then val px else 0) + pixel_sum sel val pxs.
Proof. reflexivity. Qed.

Lemma wrap_long_of_same (x y : Z) :
  - 2 ^ 31 <= x < 2 ^ 31 -> same_long x y -> x = wrap_long y.
Proof.
  intros Hx Hs. rewrite <- (wrap_long_small x Hx). apply wrap_long_eq. exact Hs.
Qed.

(** One pixel of [Hist3d] on the four integer tables. *)
Lemma Hist3d_pixel_tables (px : Z) (q : moments) (j : Z) :
  tget (wt (Hist3d_pixel px q)) j
  = (if at_index j px then wrap_long (tget (wt q) j + 1) else tget (wt q) j)
  /\ tget (mr (Hist3d_pixel px q)) j
     = (if at_index j px then wrap_long (tget (mr q) j + pix_r px) else tget (mr q) j)
  /\ tget (mg (Hist3d_pixel px q)) j
     = (if at_index j px then wrap_long (tget (mg q) j + pix_g px) else tget (mg q) j)
  /\ tget (mb (Hist3d_pixel px q)) j
     = (if at_index j px then wrap_long (tget (mb q) j + pix_b px) else tget (mb q) j).
Proof.
  unfold Hist3d_pixel. cbn [wt mr mg mb]. rewrite !tget_tset.
  change (Z.land (Z.shiftr px 16) 255) with (pix_r px).
  change (Z.land (Z.shiftr px 8) 255) with (pix_g px).
  change (Z.land px 255) with (pix_b px).
  change (Z.shiftr (pix_r px) 3 + 1) with (quant (pix_r px)).
  change (Z.shiftr (pix_g px) 3 + 1) with (quant (pix_g px)).
  change (Z.shiftr (pix_b px) 3 + 1) with (quant (pix_b px)).
  change (quant (pix_r px) * (33 * 33) + quant (pix_g px) * 33 + quant (pix_b px))
    with (idx (quant (pix_r px)) (quant (pix_g px)) (quant (pix_b px))).
  unfold at_index, ladd.
  destruct (Z.eqb_spec (idx (quant (pix_r px)) (quant (pix_g px)) (quant (pix_b px))) j)
    as [E|E].
  - rewrite <- E, Z.eqb_refl. repeat split; reflexivity.
  - replace (j =? idx (quant (pix_r px)) (quant (pix_g px)) (quant (pix_b px))) with false
      by (symmetry; apply Z.eqb_neq; congruence).
    repeat split; reflexivity.
Qed.

(** The tables stay tables of [long]s. *)
Lemma Hist3d_long_tables (pxs : list Z) (q : moments) :
  long_table (wt q) /\ long_table (mr q) /\ long_table (mg q) /\ long_table (mb q) ->
  let q' := fold_left (fun q px => Hist3d_pixel px q) pxs q in
  long_table (wt q') /\ long_table (mr q') /\ long_table (mg q') /\ long_table (mb q').
Proof.
  revert q. induction pxs as [|px pxs IH]; intros q H; [exact H|].
  cbn [fold_left]. apply IH. destruct H as (H1 & H2 & H3 & H4).
  split; [|split; [|split]]; intros j;
    destruct (Hist3d_pixel_tables px q j) as (E1 & E2 & E3 & E4);
    rewrite ?E1, ?E2, ?E3, ?E4;
    destruct (at_index j px);
    try apply wrap_long_range; try apply H1; try apply H2; try apply H3; try apply H4.
Qed.

(** The four integer tables after the pixels [pxs] have been added: each
    cell has grown, up to what a [long] tells apart, by the sum of its
    statistic over the pixels that fall in the cell. *)
Lemma Hist3d_tables (pxs : list Z) (q : moments) (j : Z) :
  let q' := fold_left (fun q px => Hist3d_pixel px q) pxs q in
  same_long (tget (wt q') j) (tget (wt q) j + pixel_sum (at_index j) (fun _ => 1) pxs)
  /\ same_long (tget (mr q') j) (tget (mr q) j + pixel_sum (at_index j) pix_r pxs)
  /\ same_long (tget (mg q') j) (tget (mg q) j + pixel_sum (at_index j) pix_g pxs)
  /\ same_long (tget (mb q') j) (tget (mb q) j + pixel_sum (at_index j) pix_b pxs).
Proof.
  revert q. induction pxs as [|px pxs IH]; intros q; cbn [fold_left].
  - cbn. rewrite !Z.add_0_r. repeat split; reflexivity.
  - cbv zeta in IH. destruct (IH (Hist3d_pixel px q)) as (H1 & H2 & H3 & H4).
    destruct (Hist3d_pixel_tables px q j) as (E1 & E2 & E3 & E4).
    cbv zeta. rewrite H1, H2, H3, H4, E1, E2, E3, E4, !pixel_sum_cons.
    destruct (at_index j px); rewrite ?wrap_long_same;
      repeat split; apply same_long_mod; f_equal; lia.
Qed.

Lemma box_sum_ext (h h' : Z -> Z -> Z -> Z) (c : box) :
  (forall r g b, r0 c < r <= r1 c -> g0 c < g <= g1 c -> b0 c < b <= b1 c ->
     h r g b = h' r g b) ->
  box_sum h c = box_sum h' c.
Proof.
  intros H. unfold box_sum.
  apply zsum_ext. intros r Hr. apply zsum_ext. intros g Hg. apply zsum_ext. intros b Hb.
  apply H; lia.
Qed.

Lemma box_sum_add (h h' : Z -> Z -> Z -> Z) (c : box) :
  box_sum (fun r g b => h r g b + h' r g b) c = box_sum h c + box_sum h' c.
Proof.
  unfold box_sum. rewrite <- zsum_add. apply zsum_ext. intros r _.
  rewrite <- zsum_add. apply zsum_ext. intros g _. apply zsum_add.
Qed.

Lemma box_sum_zero (c : box) : box_sum (fun _ _ _ => 0) c = 0.
Proof.
  unfold box_sum.
  rewrite (zsum_ext _ (fun _ => 0)); [apply zsum_zero|]. intros r _.
  rewrite (zsum_ext _ (fun _ => 0)); [apply zsum_zero|]. intros g _. apply zsum_zero.
Qed.

(** The sum over a box of a function that is [v] at one cell and 0 at the
    others. *)
Lemma box_sum_delta (c : box) (qr qg qb v : Z) :
  0 <= g0 c -> g1 c <= 32 -> 0 <= b0 c -> b1 c <= 32 ->
  1 <= qg <= 32 -> 1 <= qb <= 32 ->
  box_sum (fun r g b => if idx qr qg qb =? idx r g b then v else 0) c
  = if in_boxb c qr qg qb then v else 0.
Proof.
  intros Hg0 Hg1 Hb0 Hb1 Hqg Hqb.
  destruct (in_boxb c qr qg qb) eqn:E.
  - apply in_boxb_iff in E. destruct E as (Er & Eg & Eb). unfold box_sum.
    rewrite (zsum_single _ _ _ qr); [|lia|].
    2:{ intros r Hr Hne.
        rewrite (zsum_ext _ (fun _ => 0)); [apply zsum_zero|]. intros g Hg.
        rewrite (zsum_ext _ (fun _ => 0)); [apply zsum_zero|]. intros b Hb.
        destruct (Z.eqb_spec (idx qr qg qb) (idx r g b)) as [Ei|]; [|reflexivity].
        apply idx_inj in Ei; lia. }
    rewrite (zsum_single _ _ _ qg); [|lia|].
    2:{ intros g Hg Hne.
        rewrite (zsum_ext _ (fun _ => 0)); [apply zsum_zero|]. intros b Hb.
        destruct (Z.eqb_spec (idx qr qg qb) (idx qr g b)) as [Ei|]; [|reflexivity].
        apply idx_inj in Ei; lia. }
    rewrite (zsum_single _ _ _ qb); [|lia|].
    2:{ intros b Hb Hne.
        destruct (Z.eqb_spec (idx qr qg qb) (idx qr qg b)) as [Ei|]; [|reflexivity].
        apply idx_inj in Ei; lia. }
    rewrite Z.eqb_refl. reflexivity.
  - rewrite (box_sum_ext _ (fun _ _ _ => 0)); [apply box_sum_zero|].
    intros r g b Hr Hg Hb.
    destruct (Z.eqb_spec (idx qr qg qb) (idx r g b)) as [Ei|]; [|reflexivity].
    apply idx_inj in Ei; [|lia ..]. destruct Ei as (-> & -> & ->).
    apply not_true_iff_false in E. exfalso. apply E. apply in_boxb_iff. unfold in_box. lia.
Qed.

(** Summed over the cells of a box, the histogram of a statistic is the
    sum of the statistic over the pixels whose quantized colour lies in
    the box. *)
Lemma box_sum_pixels (val : Z -> Z) (pxs : list Z) (c : box) :
  0 <= g0 c -> g1 c <= 32 -> 0 <= b0 c -> b1 c <= 32 ->
  box_sum (fun r g b => pixel_sum (at_index (idx r g b)) val pxs) c
  = pixel_sum (in_box_px c) val pxs.
Proof.
  intros Hg0 Hg1 Hb0 Hb1. induction pxs as [|px pxs IH].
  - apply box_sum_zero.
  - rewrite pixel_sum_cons, <- IH.
    rewrite (box_sum_ext _ (fun r g b =>
               (if idx (quant (pix_r px)) (quant (pix_g px)) (quant (pix_b px)) =? idx r g b
                then val px else 0)
               + pixel_sum (at_index (idx r g b)) val pxs))
      by (intros; reflexivity).
    rewrite box_sum_add. f_equal.
    destruct (pix_quant_range px) as (_ & Hqg & Hqb).
    apply box_sum_delta; assumption.
Qed.

Lemma pixel_sum_all (pxs : list Z) (sel : Z -> bool) :
  (forall px, sel px = true) -> pixel_sum sel (fun _ => 1) pxs = Z.of_nat (length pxs).
Proof.
  intros H. induction pxs as [|px pxs IH]; [reflexivity|].
  rewrite pixel_sum_cons, H, IH. cbn [length]. lia.
Qed.

Lemma zrange_length (lo hi : Z) : Z.of_nat (length (zrange lo hi)) = Z.max 0 (hi - lo).
Proof. unfold zrange. rewrite length_map, length_seq. lia. Qed.

Lemma tile_pixels_length (mem : Z -> Z) (tt : tiletype) :
  Z.of_nat (length (tile_pixels mem tt)) = tile_count tt.
Proof.
  unfold tile_pixels, tile_count.
  assert (H : forall l : list Z,
            Z.of_nat (length (flat_map (fun y => map (fun x => mem (tf tt + y * tp tt + 4 * x))
                                                   (zrange 0 (tx tt))) l))
            = Z.max 0 (tx tt) * Z.of_nat (length l)).
  { induction l as [|y l IH]; [simpl; lia|].
    cbn [flat_map]. rewrite length_app, Nat2Z.inj_add, IH, length_map, zrange_length.
    cbn [length]. lia. }
  rewrite H, zrange_length. lia.
Qed.

Lemma all_pixels_length (imgs : list ((Z -> Z) * tiletype)) :
  Z.of_nat (length (all_pixels imgs)) = pixels_fed imgs.
Proof.
  induction imgs as [|im imgs IH]; [reflexivity|].
  unfold all_pixels in *. cbn [flat_map pixels_fed fold_right].
  rewrite length_app, Nat2Z.inj_add, IH, tile_pixels_length. reflexivity.
Qed.

(** ** [genpal] as a whole *)

Lemma at_index_margin (r g b : Z) (px : Z) :
  0 <= g <= 32 -> 0 <= b <= 32 -> r = 0 \/ g = 0 \/ b = 0 ->
  at_index (idx r g b) px = false.
Proof.
  intros Hg Hb H0. unfold at_index. apply Z.eqb_neq. intros E.
  destruct (pix_quant_range px) as (Hqr & Hqg & Hqb).
  apply idx_inj in E; lia.
Qed.

Lemma pixel_sum_none (sel : Z -> bool) (val : Z -> Z) (pxs : list Z) :
  (forall px, sel px = false) -> pixel_sum sel val pxs = 0.
Proof.
  intros H. induction pxs as [|px pxs IH]; [reflexivity|].
  rewrite pixel_sum_cons, H, IH. reflexivity.
Qed.

Lemma genpal_init_long :
  long_table (wt genpal_init) /\ long_table (mr genpal_init)
  /\ long_table (mg genpal_init) /\ long_table (mb genpal_init).
Proof.
  cbn [genpal_init wt mr mg mb]. unfold long_table.
  repeat split; rewrite tget_empty; lia.
Qed.

(** The tables on entry to [genpal], after the images have been added to
    zeroed tables: each cell holds, as a [long] holds it, the sum of its
    statistic over the pixels that fall in the cell. *)
Lemma addhist_all_tables (imgs : list ((Z -> Z) * tiletype)) (j : Z) :
  let q := addhist_all imgs genpal_init in
  let pxs := all_pixels imgs in
  tget (wt q) j = wrap_long (pixel_sum (at_index j) (fun _ => 1) pxs)
  /\ tget (mr q) j = wrap_long (pixel_sum (at_index j) pix_r pxs)
  /\ tget (mg q) j = wrap_long (pixel_sum (at_index j) pix_g pxs)
  /\ tget (mb q) j = wrap_long (pixel_sum (at_index j) pix_b pxs).
Proof.
  cbv zeta. rewrite addhist_all_fold.
  destruct (Hist3d_tables (all_pixels imgs) genpal_init j) as (H1 & H2 & H3 & H4).
  destruct (Hist3d_long_tables (all_pixels imgs) genpal_init genpal_init_long)
    as (L1 & L2 & L3 & L4).
  cbv zeta in H1, H2, H3, H4, L1, L2, L3, L4.
  cbn [genpal_init wt mr mg mb] in H1, H2, H3, H4.
  rewrite tget_empty, Z.add_0_l in H1, H2, H3, H4.
  split; [|split; [|split]]; apply wrap_long_of_same;
    try apply L1; try apply L2; try apply L3; try apply L4; assumption.
Qed.

Lemma addhist_all_margin (imgs : list ((Z -> Z) * tiletype)) :
  let q := addhist_all imgs genpal_init in
  zero_margin (wt q) /\ zero_margin (mr q) /\ zero_margin (mg q) /\ zero_margin (mb q).
Proof.
  cbv zeta. split; [|split; [|split]]; intros r g b Hr Hg Hb H0;
    destruct (addhist_all_tables imgs (idx r g b)) as (H1 & H2 & H3 & H4);
    cbv zeta in H1, H2, H3, H4; rewrite ?H1, ?H2, ?H3, ?H4;
    (rewrite pixel_sum_none; [reflexivity|]);
    intros px; apply at_index_margin; assumption.
Qed.

(** Sums of terms that a [long] does not tell apart. *)
Lemma zsum_same_long (f g : Z -> Z) (lo hi : Z) :
  (forall k, lo <= k < hi -> same_long (f k) (g k)) ->
  same_long (zsum f lo hi) (zsum g lo hi).
Proof.
  intros H. destruct (Z.le_gt_cases hi lo) as [Hle|Hlt].
  { rewrite !zsum_empty by exact Hle. reflexivity. }
  unfold zsum at 1.
  apply (for_range_ind (fun n acc => same_long acc (zsum g lo n))); [lia | |].
  - rewrite zsum_empty by lia. reflexivity.
  - intros j t Hj IH. rewrite zsum_last by lia. rewrite IH, (H j) by lia. reflexivity.
Qed.

Lemma box_sum_same_long (h h' : Z -> Z -> Z -> Z) (c : box) :
  (forall r g b, same_long (h r g b) (h' r g b)) ->
  same_long (box_sum h c) (box_sum h' c).
Proof.
  intros H. unfold box_sum.
  apply zsum_same_long. intros r _. apply zsum_same_long. intros g _.
  apply zsum_same_long. intros b _. apply H.
Qed.

(** One table through [M3d], then [Vol]: the sum of the statistic over the
    pixels whose quantized colour lies in the box, as a [long] holds it. *)
Lemma Vol_M3d_lane (T0 : gmap Z Z) (jl : Z) (ja : gmap Z Z) (val : Z -> Z)
    (pxs : list Z) (c : box) :
  zero_margin T0 ->
  (forall j, tget T0 j = wrap_long (pixel_sum (at_index j) val pxs)) ->
  0 <= r0 c <= r1 c -> r1 c <= 32 -> 0 <= g0 c <= g1 c -> g1 c <= 32 ->
  0 <= b0 c <= b1 c -> b1 c <= 32 ->
  Vol c (tbl (M3d_lane (mklane jl ja T0))) = wrap_long (pixel_sum (in_box_px c) val pxs).
Proof.
  intros Hm HT Hr Hr1 Hg Hg1 Hb Hb1.
  rewrite (Vol_box_sum T0) by (try lia; intros; apply M3d_lane_prefix; assumption).
  apply wrap_long_eq.
  rewrite <- (box_sum_pixels val pxs c) by lia.
  apply box_sum_same_long. intros r g b. unfold hist_at. rewrite HT.
  apply wrap_long_same.
Qed.

(** After [genpal_addhist] on each image and [M3d], [Vol] of a box inside
    the cube over [wt] is the number of pixels whose quantized colour lies
    in the box, and over [mr], [mg], [mb] the sum of their red, green and
    blue channels, each as a [long] holds it. *)
Lemma Vol_pixels (imgs : list ((Z -> Z) * tiletype)) (jz : Z) (jq : Q)
    (ja : gmap Z Z) (jaq : gmap Z Q) (c : box) :
  0 <= r0 c <= r1 c -> r1 c <= 32 -> 0 <= g0 c <= g1 c -> g1 c <= 32 ->
  0 <= b0 c <= b1 c -> b1 c <= 32 ->
  let q := M3d jz jq ja jaq (addhist_all imgs genpal_init) in
  let pxs := all_pixels imgs in
  Vol c (wt q) = wrap_long (pixel_sum (in_box_px c) (fun _ => 1) pxs)
  /\ Vol c (mr q) = wrap_long (pixel_sum (in_box_px c) pix_r pxs)
  /\ Vol c (mg q) = wrap_long (pixel_sum (in_box_px c) pix_g pxs)
  /\ Vol c (mb q) = wrap_long (pixel_sum (in_box_px c) pix_b pxs).
Proof.
  intros Hr Hr1 Hg Hg1 Hb Hb1. cbv zeta.
  destruct (M3d_tables jz jq ja jaq (addhist_all imgs genpal_init)) as (E1 & E2 & E3 & E4).
  rewrite E1, E2, E3, E4.
  destruct (addhist_all_margin imgs) as (M1 & M2 & M3 & M4). cbv zeta in M1, M2, M3, M4.
  assert (HT : forall j,
            tget (wt (addhist_all imgs genpal_init)) j
            = wrap_long (pixel_sum (at_index j) (fun _ => 1) (all_pixels imgs))
            /\ tget (mr (addhist_all imgs genpal_init)) j
               = wrap_long (pixel_sum (at_index j) pix_r (all_pixels imgs))
            /\ tget (mg (addhist_all imgs genpal_init)) j
               = wrap_long (pixel_sum (at_index j) pix_g (all_pixels imgs))
            /\ tget (mb (addhist_all imgs genpal_init)) j
               = wrap_long (pixel_sum (at_index j) pix_b (all_pixels imgs)))
    by (intros j; exact (addhist_all_tables imgs j)).
  split; [|split; [|split]].
  - apply (Vol_M3d_lane _ jz ja (fun _ => 1) _ c M1); [intros j; apply (HT j) | lia ..].
  - apply (Vol_M3d_lane _ jz ja pix_r _ c M2); [intros j; apply (HT j) | lia ..].
  - apply (Vol_M3d_lane _ jz ja pix_g _ c M3); [intros j; apply (HT j) | lia ..].
  - apply (Vol_M3d_lane _ jz ja pix_b _ c M4); [intros j; apply (HT j) | lia ..].
Qed.

(** The number of selected pixels, and the sum of a channel over them. *)
Lemma pixel_sum_count_range (sel : Z -> bool) (pxs : list Z) :
  0 <= pixel_sum sel (fun _ => 1) pxs <= Z.of_nat (length pxs).
Proof.
  induction pxs as [|px pxs IH]; [simpl; lia|].
  rewrite pixel_sum_cons. cbn [length]. destruct (sel px); lia.
Qed.

Lemma pixel_sum_bounds (sel : Z -> bool) (val : Z -> Z) (lo hi : Z) (pxs : list Z) :
  (forall px, sel px = true -> lo <= val px <= hi) ->
  lo * pixel_sum sel (fun _ => 1) pxs <= pixel_sum sel val pxs
  <= hi * pixel_sum sel (fun _ => 1) pxs.
Proof.
  intros H. induction pxs as [|px pxs IH]; [simpl; lia|].
  rewrite !pixel_sum_cons. specialize (H px). destruct (sel px); [|lia].
  specialize (H eq_refl). lia.
Qed.

(** With fewer than [2^31] pixels fed the count of a box is held exactly;
    with fewer than [2^31 / 255] so are its three channel sums. *)
Lemma Vol_count (imgs : list ((Z -> Z) * tiletype)) (jz : Z) (jq : Q)
    (ja : gmap Z Z) (jaq : gmap Z Q) (c : box) :
  pixels_fed imgs < 2 ^ 31 -> box_wf c ->
  Vol c (wt (M3d jz jq ja jaq (addhist_all imgs genpal_init)))
  = pixel_sum (in_box_px c) (fun _ => 1) (all_pixels imgs).
Proof.
  intros Hfed Hwf. unfold box_wf in Hwf.
  destruct (Vol_pixels imgs jz jq ja jaq c) as (Hw & _); [lia ..|].
  cbv zeta in Hw. rewrite Hw. apply wrap_long_small.
  pose proof (pixel_sum_count_range (in_box_px c) (all_pixels imgs)).
  rewrite all_pixels_length in H. lia.
Qed.

Lemma Vol_sums (imgs : list ((Z -> Z) * tiletype)) (jz : Z) (jq : Q)
    (ja : gmap Z Z) (jaq : gmap Z Q) (c : box) :
  255 * pixels_fed imgs < 2 ^ 31 -> box_wf c ->
  let q := M3d jz jq ja jaq (addhist_all imgs genpal_init) in
  Vol c (mr q) = pixel_sum (in_box_px c) pix_r (all_pixels imgs)
  /\ Vol c (mg q) = pixel_sum (in_box_px c) pix_g (all_pixels imgs)
  /\ Vol c (mb q) = pixel_sum (in_box_px c) pix_b (all_pixels imgs).
Proof.
  intros Hfed Hwf. unfold box_wf in Hwf. cbv zeta.
  destruct (Vol_pixels imgs jz jq ja jaq c) as (_ & Hr & Hg & Hb); [lia ..|].
  cbv zeta in Hr, Hg, Hb. rewrite Hr, Hg, Hb.
  pose proof (pixel_sum_count_range (in_box_px c) (all_pixels imgs)) as Hc.
  rewrite all_pixels_length in Hc.
  pose proof (pixel_sum_bounds (in_box_px c) pix_r 0 255 (all_pixels imgs)
                ltac:(intros; apply byte_range)) as Br.
  pose proof (pixel_sum_bounds (in_box_px c) pix_g 0 255 (all_pixels imgs)
                ltac:(intros; apply byte_range)) as Bg.
  pose proof (pixel_sum_bounds (in_box_px c) pix_b 0 255 (all_pixels imgs)
                ltac:(intros; apply byte_range)) as Bb.
  split; [|split]; apply wrap_long_small; lia.
Qed.

(** A cut shares the pixels of a box out between its two halves. *)
Lemma split_of_pixel_sum (c s1 s2 : box) (val : Z -> Z) (pxs : list Z) :
  split_of c s1 s2 ->
  pixel_sum (in_box_px s1) val pxs + pixel_sum (in_box_px s2) val pxs
  = pixel_sum (in_box_px c) val pxs.
Proof.
  intros Hs. induction pxs as [|px pxs IH]; [reflexivity|].
  rewrite !pixel_sum_cons, <- IH. unfold in_box_px.
  pose proof (split_of_in_box c s1 s2 (quant (pix_r px)) (quant (pix_g px))
                (quant (pix_b px)) Hs) as H.
  destruct (in_boxb s1 _ _ _); destruct (in_boxb s2 _ _ _); destruct (in_boxb c _ _ _); lia.
Qed.

(** A division by a positive [long] is defined. *)
Lemma ldiv_pos (a b : Z) : 0 < b -> ldiv a b = Some (Z.quot a b).
Proof.
  intros Hb. unfold ldiv.
  destruct (Z.eqb_spec b 0) as [E|_]; [lia|].
  destruct (Z.eqb_spec b (-1)) as [E|_]; [lia|].
  rewrite andb_false_r. reflexivity.
Qed.

(** The finalization loop over boxes of no negative weight runs to its
    end without a division C leaves undefined, and writes each entry
    once. *)
Lemma genpal_entries (q : moments) (cube : Z -> box) (pal0 : Z -> Z) (tag0 : gmap Z Z) (n : Z) :
  0 <= n ->
  (forall k, 0 <= k < n -> 0 <= Vol (cube k) (wt q)) ->
  exists pal tag,
    for_range 0 n (genpal_entry q cube) (Some (pal0, tag0)) = Some (pal, tag)
    /\ (forall k, 0 <= k < n -> pal k = entry_of q (cube k))
    /\ (forall k, ~ 0 <= k < n -> pal k = pal0 k).
Proof.
  intros Hn Hw.
  enough (H : forall m, 0 <= m <= n ->
            exists pal tag,
              for_range 0 m (genpal_entry q cube) (Some (pal0, tag0)) = Some (pal, tag)
              /\ (forall k, 0 <= k < m -> pal k = entry_of q (cube k))
              /\ (forall k, ~ 0 <= k < m -> pal k = pal0 k))
    by (apply H; lia).
  intros m Hm. generalize Hm.
  apply (for_range_ind (fun m s => 0 <= m <= n ->
           exists pal tag,
             s = Some (pal, tag)
             /\ (forall k, 0 <= k < m -> pal k = entry_of q (cube k))
             /\ (forall k, ~ 0 <= k < m -> pal k = pal0 k))).
  - lia.
  - intros _. exists pal0, tag0. split; [reflexivity|].
    split; [intros k Hk; lia | reflexivity].
  - intros j s Hj IH Hj1. destruct IH as (pal & tag & -> & H1 & H2); [lia|].
    unfold genpal_entry.
    assert (Hupd : forall v, v = entry_of q (cube j) ->
              (forall k, 0 <= k < j + 1 -> upd pal j v k = entry_of q (cube k))
              /\ (forall k, ~ 0 <= k < j + 1 -> upd pal j v k = pal0 k)).
    { intros v ->. split; intros k Hk.
      - destruct (Z.eq_dec k j) as [->|Hne]; [apply upd_eq|].
        rewrite upd_ne by exact Hne. apply H1. lia.
      - rewrite upd_ne by lia. apply H2. lia. }
    cbv zeta. pose proof (Hw j ltac:(lia)) as Hwj.
    destruct (Z.eqb_spec (Vol (cube j) (wt q)) 0) as [Ew|Ew].
    + eexists _, _. split; [reflexivity|]. apply Hupd.
      unfold entry_of. cbv zeta. rewrite Ew. reflexivity.
    + rewrite !ldiv_pos by lia.
      eexists _, _. split; [reflexivity|]. apply Hupd.
      unfold entry_of. cbv zeta. apply Z.eqb_neq in Ew. rewrite Ew. reflexivity.
Qed.

Lemma genpal_loop_facts (q : moments) (cube0 : Z -> box) (vv0 : Z -> Q) (mu : box -> Z) :
  (forall c s1 s2, split_of c s1 s2 -> mu s1 + mu s2 = mu c) ->
  running (genpal_loop q genpal_trips (genpal_start cube0 vv0)) = false
  /\ ginv (genpal_loop q genpal_trips (genpal_start cube0 vv0))
  /\ 1 <= colsiz (genpal_loop q genpal_trips (genpal_start cube0 vv0)) <= 256
  /\ zsum (fun k => mu (cube (genpal_loop q genpal_trips (genpal_start cube0 vv0)) k)) 0
          (colsiz (genpal_loop q genpal_trips (genpal_start cube0 vv0)))
     = mu (mkbox 0 32 0 32 0 32 (vol (cube0 0))).
Proof.
  intros Hmu.
  pose proof (genpal_loop_stops q cube0 vv0) as Hstop.
  destruct (genpal_loop_inv q mu genpal_trips (genpal_start cube0 vv0) Hmu
              (genpal_start_inv cube0 vv0)) as [Hinv Htot].
  rewrite genpal_start_total in Htot.
  revert Hstop Hinv Htot.
  generalize (genpal_loop q genpal_trips (genpal_start cube0 vv0)).
  intros s Hstop Hinv Htot. unfold total, live in Htot.
  pose proof Hinv as [Hloc _]. rewrite Hstop in Htot, Hloc.
  split; [exact Hstop|]. split; [exact Hinv|]. split; [exact Hloc | exact Htot].
Qed.

(** The boxes the split loop is left with lie in the cube. *)
Lemma genpal_final_wf (q : moments) (cube0 : Z -> box) (vv0 : Z -> Q) (k : Z) :
  0 <= k < colsiz (genpal_loop q genpal_trips (genpal_start cube0 vv0)) ->
  box_wf (cube (genpal_loop q genpal_trips (genpal_start cube0 vv0)) k).
Proof.
  destruct (genpal_loop_facts q cube0 vv0 (fun _ => 0)) as (Hstop & Hinv & _);
    [intros; reflexivity|].
  revert Hstop Hinv. generalize (genpal_loop q genpal_trips (genpal_start cube0 vv0)).
  intros s Hstop [_ Hwf] Hk. apply Hwf. unfold live. rewrite Hstop. exact Hk.
Qed.

(** What [genpal] returns, when no box inside the cube has a negative
    weight. *)
Lemma genpal_result (jz : Z) (jq : Q) (ja : gmap Z Z) (jaq : gmap Z Q)
    (cube0 : Z -> box) (vv0 : Z -> Q) (tag0 : gmap Z Z) (q0 : moments) (pal0 : Z -> Z) :
  (forall c, box_wf c -> 0 <= Vol c (wt (M3d jz jq ja jaq q0))) ->
  exists p,
    genpal jz jq ja jaq cube0 vv0 tag0 q0 pal0 = Some p
    /\ ncol p = colsiz (genpal_loop (M3d jz jq ja jaq q0) genpal_trips (genpal_start cube0 vv0))
    /\ boxes p = cube (genpal_loop (M3d jz jq ja jaq q0) genpal_trips (genpal_start cube0 vv0))
    /\ wt (mom p) = wt (M3d jz jq ja jaq q0)
    /\ mr (mom p) = mr (M3d jz jq ja jaq q0)
    /\ mg (mom p) = mg (M3d jz jq ja jaq q0)
    /\ mb (mom p) = mb (M3d jz jq ja jaq q0)
    /\ (forall k, 0 <= k < ncol p ->
          pal p k = entry_of (M3d jz jq ja jaq q0) (boxes p k))
    /\ (forall k, ~ 0 <= k < ncol p -> pal p k = pal0 k).
Proof.
  intros Hpos. unfold genpal. cbv zeta.
  destruct (genpal_loop_facts (M3d jz jq ja jaq q0) cube0 vv0 (fun _ => 0))
    as (_ & _ & Hc & _); [intros; reflexivity|].
  pose proof (genpal_final_wf (M3d jz jq ja jaq q0) cube0 vv0) as Hwf.
  revert Hc Hwf Hpos.
  generalize (genpal_loop (M3d jz jq ja jaq q0) genpal_trips (genpal_start cube0 vv0)).
  generalize (M3d jz jq ja jaq q0). intros q s Hc Hwf Hpos.
  destruct (genpal_entries q (cube s) pal0 tag0 (colsiz s) ltac:(lia))
    as (pal1 & tag1 & Hfor & H1 & H2).
  { intros k Hk. apply Hpos. apply Hwf. exact Hk. }
  rewrite Hfor. eexists. split; [reflexivity|]. cbn [ncol boxes mom pal wt mr mg mb].
  do 6 (split; [reflexivity|]). split; [exact H1 | exact H2].
Qed.

(** The whole cube holds every pixel. *)
Lemma whole_cube_pixels (imgs : list ((Z -> Z) * tiletype)) (v : Z) :
  pixel_sum (in_box_px (mkbox 0 32 0 32 0 32 v)) (fun _ => 1) (all_pixels imgs)
  = pixels_fed imgs.
Proof.
  rewrite pixel_sum_all; [apply all_pixels_length|].
  intros px. unfold in_box_px. apply in_boxb_iff. unfold in_box. cbn [r0 r1 g0 g1 b0 b1].
  pose proof (pix_quant_range px). lia.
Qed.

(** With fewer than [2^31] pixels fed, [genpal] runs to its end and its
    final boxes share the pixels out. *)
Lemma genpal_counts (imgs : list ((Z -> Z) * tiletype))
    (jz : Z) (jq : Q) (ja : gmap Z Z) (jaq : gmap Z Q)
    (cube0 : Z -> box) (vv0 : Z -> Q) (tag0 : gmap Z Z) (pal0 : Z -> Z) :
  pixels_fed imgs < 2 ^ 31 ->
  exists p,
    genpal jz jq ja jaq cube0 vv0 tag0 (addhist_all imgs genpal_init) pal0 = Some p
    /\ 1 <= ncol p <= 256
    /\ (forall k, 0 <= k < ncol p -> box_wf (boxes p k))
    /\ wt (mom p) = wt (M3d jz jq ja jaq (addhist_all imgs genpal_init))
    /\ mr (mom p) = mr (M3d jz jq ja jaq (addhist_all imgs genpal_init))
    /\ mg (mom p) = mg (M3d jz jq ja jaq (addhist_all imgs genpal_init))
    /\ mb (mom p) = mb (M3d jz jq ja jaq (addhist_all imgs genpal_init))
    /\ (forall k, 0 <= k < ncol p ->
          pal p k = entry_of (M3d jz jq ja jaq (addhist_all imgs genpal_init)) (boxes p k))
    /\ zsum (fun k => pixel_sum (in_box_px (boxes p k)) (fun _ => 1) (all_pixels imgs))
            0 (ncol p)
       = pixels_fed imgs.
Proof.
  intros Hfed.
  destruct (genpal_result jz jq ja jaq cube0 vv0 tag0 (addhist_all imgs genpal_init) pal0)
    as (p & Hp & Hn & Hb & E1 & E2 & E3 & E4 & Hpal & _).
  { intros c Hwf. rewrite Vol_count by assumption.
    apply pixel_sum_count_range. }
  exists p. split; [exact Hp|]. rewrite Hn, Hb.
  destruct (genpal_loop_facts (M3d jz jq ja jaq (addhist_all imgs genpal_init)) cube0 vv0
              (fun c => pixel_sum (in_box_px c) (fun _ => 1) (all_pixels imgs)))
    as (_ & _ & Hc & Htot); [intros c s1 s2 Hs; apply split_of_pixel_sum; exact Hs|].
  rewrite whole_cube_pixels in Htot.
  split; [exact Hc|]. split; [apply genpal_final_wf|].
  do 4 (split; [assumption|]). split; [|exact Htot].
  intros k Hk. rewrite <- Hb. apply Hpal. rewrite Hn. exact Hk.
Qed.

(** Each pixel falls in one final box and in no other. *)
Lemma genpal_final_partition (q : moments) (cube0 : Z -> box) (vv0 : Z -> Q) (px : Z) :
  exists k,
    0 <= k < colsiz (genpal_loop q genpal_trips (genpal_start cube0 vv0))
    /\ in_box_px (cube (genpal_loop q genpal_trips (genpal_start cube0 vv0)) k) px = true
    /\ forall k',
         0 <= k' < colsiz (genpal_loop q genpal_trips (genpal_start cube0 vv0)) ->
         in_box_px (cube (genpal_loop q genpal_trips (genpal_start cube0 vv0)) k') px = true ->
         k' = k.
Proof.
  destruct (genpal_loop_facts q cube0 vv0 (fun c => if in_box_px c px then 1 else 0))
    as (_ & _ & _ & Htot).
  { intros c s1 s2 Hs. unfold in_box_px. apply split_of_in_box. exact Hs. }
  replace (in_box_px (mkbox 0 32 0 32 0 32 (vol (cube0 0))) px) with true in Htot.
  - apply (zsum_indicator_one _ 0 _ Htot).
  - symmetry. unfold in_box_px. apply in_boxb_iff. unfold in_box. cbn [r0 r1 g0 g1 b0 b1].
    pose proof (pix_quant_range px). lia.
Qed.

(** Three bytes packed into a [long] as [genpal] packs a palette entry. *)
Lemma packed_entry (cr cg cb : Z) :
  0 <= cr <= 255 -> 0 <= cg <= 255 -> 0 <= cb <= 255 ->
  lshl cr 16 +| lshl cg 8 +| cb = Z.shiftl cr 16 + Z.shiftl cg 8 + cb.
Proof.
  intros Hr Hg Hb. unfold lshl, ladd. rewrite !Z.shiftl_mul_pow2 by lia.
  change (2 ^ 16) with 65536. change (2 ^ 8) with 256.
  rewrite (wrap_long_small (cr * 65536)) by lia.
  rewrite (wrap_long_small (cg * 256)) by lia.
  rewrite (wrap_long_small (cr * 65536 + cg * 256)) by lia.
  apply wrap_long_small. lia.
Qed.

(** The mean of a channel over a box that holds a pixel is a byte. *)
Lemma mean_is_byte (s w : Z) : 0 < w -> 0 <= s <= 255 * w -> 0 <= Z.quot s w <= 255.
Proof.
  intros Hw Hs. rewrite Z.quot_div_nonneg by lia. split.
  - apply Z.div_pos; lia.
  - apply Z.div_le_upper_bound; lia.
Qed.

(** C10: when the images fed by [genpal_addhist] to zeroed tables hold
    fewer than [2^31 / 255] pixels (so that no entry of the [long] tables
    overflows), [genpal] runs to its end without executing a division by
    zero, with 1 to 256 final boxes that share the pixels out: each pixel
    falls in one box and in no other.  For every final box [k], [Vol] over
    [wt] is the number [w] of pixels fed whose quantized colour lies in
    the box, and [Vol] over [mr], [mg], [mb] the sums [sr], [sg], [sb] of
    their red, green and blue channels; if [w] is zero the entry is the
    null colour 0, stored without dividing, and otherwise it is the mean
    colour [(sr/w) << 16 | (sg/w) << 8 | (sb/w)] of those pixels. *)
Theorem genpal_palette_entries (imgs : list ((Z -> Z) * tiletype))
    (jz : Z) (jq : Q) (ja : gmap Z Z) (jaq : gmap Z Q)
    (cube0 : Z -> box) (vv0 : Z -> Q) (tag0 : gmap Z Z) (pal0 : Z -> Z) :
  255 * pixels_fed imgs < 2 ^ 31 ->
  exists p,
    genpal jz jq ja jaq cube0 vv0 tag0 (addhist_all imgs genpal_init) pal0 = Some p
    /\ 1 <= ncol p <= 256
    /\ (forall px, exists k,
          0 <= k < ncol p /\ in_box_px (boxes p k) px = true
          /\ forall k', 0 <= k' < ncol p -> in_box_px (boxes p k') px = true -> k' = k)
    /\ forall k, 0 <= k < ncol p ->
         let w := pixel_sum (in_box_px (boxes p k)) (fun _ => 1) (all_pixels imgs) in
         let sr := pixel_sum (in_box_px (boxes p k)) pix_r (all_pixels imgs) in
         let sg := pixel_sum (in_box_px (boxes p k)) pix_g (all_pixels imgs) in
         let sb := pixel_sum (in_box_px (boxes p k)) pix_b (all_pixels imgs) in
         Vol (boxes p k) (wt (mom p)) = w
         /\ Vol (boxes p k) (mr (mom p)) = sr
         /\ Vol (boxes p k) (mg (mom p)) = sg
         /\ Vol (boxes p k) (mb (mom p)) = sb
         /\ (w = 0 -> pal p k = 0)
         /\ (w <> 0 ->
             pal p k = Z.shiftl (Z.quot sr w) 16 + Z.shiftl (Z.quot sg w) 8 + Z.quot sb w).
Proof.
  intros Hfed.
  assert (Hfed' : pixels_fed imgs < 2 ^ 31).
  { pose proof (all_pixels_length imgs). lia. }
  destruct (genpal_result jz jq ja jaq cube0 vv0 tag0 (addhist_all imgs genpal_init) pal0)
    as (p & Hp & Hn & Hb & E1 & E2 & E3 & E4 & Hpal & _).
  { intros c Hwf. rewrite Vol_count by assumption. apply pixel_sum_count_range. }
  exists p. split; [exact Hp|].
  destruct (genpal_loop_facts (M3d jz jq ja jaq (addhist_all imgs genpal_init)) cube0 vv0
              (fun _ => 0)) as (_ & _ & Hc & _); [intros; reflexivity|].
  split; [rewrite Hn; exact Hc|].
  split.
  { intros px. rewrite Hn, Hb. apply genpal_final_partition. }
  intros k Hk. cbv zeta.
  assert (Hwf : box_wf (boxes p k)).
  { rewrite Hb. apply genpal_final_wf. rewrite <- Hn. exact Hk. }
  rewrite (Hpal k Hk), E1, E2, E3, E4. unfold entry_of. cbv zeta.
  destruct (Vol_sums imgs jz jq ja jaq (boxes p k) Hfed Hwf) as (Sr & Sg & Sb).
  cbv zeta in Sr, Sg, Sb.
  rewrite (Vol_count imgs jz jq ja jaq (boxes p k) Hfed' Hwf), Sr, Sg, Sb.
  do 4 (split; [reflexivity|]).
  pose proof (pixel_sum_count_range (in_box_px (boxes p k)) (all_pixels imgs)) as Hw.
  destruct (Z.eqb_spec (pixel_sum (in_box_px (boxes p k)) (fun _ => 1) (all_pixels imgs)) 0)
    as [E|E].
  - split; [reflexivity | contradiction].
  - split; [contradiction|]. intros _.
    apply packed_entry; apply mean_is_byte; try lia.
    + pose proof (pixel_sum_bounds (in_box_px (boxes p k)) pix_r 0 255 (all_pixels imgs)
                    ltac:(intros; apply byte_range)). lia.
    + pose proof (pixel_sum_bounds (in_box_px (boxes p k)) pix_g 0 255 (all_pixels imgs)
                    ltac:(intros; apply byte_range)). lia.
    + pose proof (pixel_sum_bounds (in_box_px (boxes p k)) pix_b 0 255 (all_pixels imgs)
                    ltac:(intros; apply byte_range)). lia.
Qed.

Lemma genpal_palette_entries_witness :
  255 * pixels_fed three_pixel_image < 2 ^ 31
  /\ exists p,
       genpal 5 7%Q ∅ ∅ (fun _ => mkbox 7 7 7 7 7 7 7) (fun _ => 3%Q) ∅
         (addhist_all three_pixel_image genpal_init) (fun _ => -1) = Some p
       /\ 1 <= ncol p <= 256
       /\ (forall px, exists k,
             0 <= k < ncol p /\ in_box_px (boxes p k) px = true
             /\ forall k', 0 <= k' < ncol p -> in_box_px (boxes p k') px = true -> k' = k)
       /\ forall k, 0 <= k < ncol p ->
            let w := pixel_sum (in_box_px (boxes p k)) (fun _ => 1)
                       (all_pixels three_pixel_image) in
            let sr := pixel_sum (in_box_px (boxes p k)) pix_r (all_pixels three_pixel_image) in
            let sg := pixel_sum (in_box_px (boxes p k)) pix_g (all_pixels three_pixel_image) in
            let sb := pixel_sum (in_box_px (boxes p k)) pix_b (all_pixels three_pixel_image) in
            Vol (boxes p k) (wt (mom p)) = w
            /\ Vol (boxes p k) (mr (mom p)) = sr
            /\ Vol (boxes p k) (mg (mom p)) = sg
            /\ Vol (boxes p k) (mb (mom p)) = sb
            /\ (w = 0 -> pal p k = 0)
            /\ (w <> 0 ->
                pal p k = Z.shiftl (Z.quot sr w) 16 + Z.shiftl (Z.quot sg w) 8 + Z.quot sb w).
Proof.
  split; [reflexivity|].
  apply (genpal_palette_entries three_pixel_image 5 7%Q ∅ ∅
           (fun _ => mkbox 7 7 7 7 7 7 7) (fun _ => 3%Q) ∅ (fun _ => -1)).
  reflexivity.
Defined.

(** C4: after any sequence of [genpal_addhist] calls on zeroed tables that
    feeds fewer than [2^31 / 255] pixels (so that no entry of the [long]
    tables overflows), [genpal] runs to its end and the pixel counts
    [Vol(box, wt)] of its final boxes add up to the number of pixels fed to
    the histogram. *)
Theorem genpal_conserves_pixels (imgs : list ((Z -> Z) * tiletype))
    (jz : Z) (jq : Q) (ja : gmap Z Z) (jaq : gmap Z Q)
    (cube0 : Z -> box) (vv0 : Z -> Q) (tag0 : gmap Z Z) (pal0 : Z -> Z) :
  255 * pixels_fed imgs < 2 ^ 31 ->
  exists p,
    genpal jz jq ja jaq cube0 vv0 tag0 (addhist_all imgs genpal_init) pal0 = Some p
    /\ zsum (fun k => Vol (boxes p k) (wt (mom p))) 0 (ncol p) = pixels_fed imgs.
Proof.
  intros Hfed.
  assert (Hfed' : pixels_fed imgs < 2 ^ 31).
  { pose proof (all_pixels_length imgs). lia. }
  destruct (genpal_counts imgs jz jq ja jaq cube0 vv0 tag0 pal0 Hfed')
    as (p & Hp & Hn & Hwf & E1 & _ & _ & _ & _ & Htot).
  exists p. split; [exact Hp|]. rewrite <- Htot. apply zsum_ext.
  intros k Hk. rewrite E1. apply Vol_count; [exact Hfed' | apply Hwf; exact Hk].
Qed.

Lemma genpal_conserves_pixels_witness :
  255 * pixels_fed three_pixel_image < 2 ^ 31
  /\ pixels_fed three_pixel_image = 3
  /\ exists p,
       genpal 5 7%Q ∅ ∅ (fun _ => mkbox 7 7 7 7 7 7 7) (fun _ => 3%Q) ∅
         (addhist_all three_pixel_image genpal_init) (fun _ => -1) = Some p
       /\ zsum (fun k => Vol (boxes p k) (wt (mom p))) 0 (ncol p)
          = pixels_fed three_pixel_image.
Proof.
  split; [reflexivity|]. split; [reflexivity|].
  apply (genpal_conserves_pixels three_pixel_image 5 7%Q ∅ ∅
           (fun _ => mkbox 7 7 7 7 7 7 7) (fun _ => 3%Q) ∅ (fun _ => -1)).
  reflexivity.
Defined.
